(** * Struct codec of @polkadot/types-codec: a shallow embedding

    The development follows [packages/types-codec/src/native/Struct.ts].
    A [Struct] is a JavaScript [Map] from field names to child codec
    instances, built by its constructor from bytes, a hex string, another
    [Struct], or an array / [Map] / plain object.

    Modelling conventions:
    - a JavaScript object used as a record ([Types], the type map, a plain
      input object) is the list of its own enumerable string-keyed
      properties in [Object.keys] order, which is the order of declaration
      for keys that are not array indices;
    - reading a property of an object finds the own property and, when
      there is none, the member that the prototype chain holds under that
      name ([constructor], [toString], ... of [Object.prototype]); the
      chain is a parameter ([inherited], [inheritedFlag]);
    - objects that are only ever looked up by key ([jsonMap], the own
      properties of the camel-cased copy [jsonObj]) are finite maps
      ([gmap]);
    - child codecs are abstract: a class is a name, an identity and a
      constructor, an instance is an object identity and the observable
      behaviour of the [Codec] interface;
    - construction runs in a state-and-exception monad whose state counts
      the [new Type(...)] calls made so far; the count at the time of a
      call is the identity ([oid]) of the instance it creates, so sharing
      an instance is visible as sharing an [oid];
    - helpers of @polkadot/util ([stringCamelCase], [stringify], [isHex],
      the hex decoder) are parameters; [stringCamelCase] may throw, as
      the helper does on a key that holds no word.

    Outside the model: an own key named [__proto__] (assigning to it
    sets the prototype), numbers that are not integers, and, among the
    values assigned to a field, codec instances that are themselves
    arrays, [Map]s or [Uint8Array]s (they are taken as the plain array,
    [Map] or [Uint8Array]). *)

From stdpp Require Import base option list strings gmap.
From Stdlib Require Import Strings.Ascii Strings.Byte NArith.

Local Open Scope string_scope.
Local Open Scope list_scope.
Set Warnings "-register-all".

(** ** Values and codec instances *)

(** [BareOpts = boolean | Record<string, boolean>], or no argument.
    [BareOther] is any other value that reaches [toU8a] at run time (a
    function found on a prototype, say): what the code asks of it is
    whether it is truthy; the tag tells such values apart. *)
Inductive BareOpts :=
| BareUndefined
| BareBool (b : bool)
| BareRecord (r : list (string * bool))
| BareOther (isTruthy : bool) (tag : string).

(** What an instance of a child codec class shows through the [Codec]
    interface. [proto] lists the identities of the classes the instance is
    an [instanceof]. *)
Record CodecImpl := mkCodecImpl {
  proto : list nat;
  c_toU8a : BareOpts -> list byte;
  c_encodedLength : nat;
  c_isEmpty : bool;
  c_toRawType : string;
  c_initialU8aLength : option nat
}.

Record Codec := mkCodec {
  oid : nat;
  impl : CodecImpl
}.

(** JavaScript values that reach the constructor. [VU8a], [VArray] and
    [VMap] are a [Uint8Array], an array and a [Map]; [VObject] is a plain
    object. A codec instance that is none of these and not a [Struct] is
    [VCodec]: it carries its own enumerable properties, being an object
    like any other for [decodeStructFromObject]. A [Struct] instance is
    [VStruct]: it carries the entries of its underlying [Map], in insertion
    order. [VFunction] is a function, known by its name. *)
Inductive JsValue :=
| VUndefined
| VNull
| VBool (b : bool)
| VNumber (n : Z)
| VString (s : string)
| VU8a (u : list byte)
| VArray (xs : list JsValue)
| VMap (entries : list (JsValue * JsValue))
| VObject (props : list (string * JsValue))
| VCodec (c : Codec) (props : list (string * JsValue))
| VStruct (c : Codec) (entries : list (string * Codec))
| VFunction (name : string).

Record Error := mkError { message : string }.

(** A codec class: [Type.name], its identity for [instanceof], and what
    [new Type(registry, value)] does for the registry at hand. *)
Record CodecClass := mkClass {
  className : string;
  classId : nat;
  construct : JsValue -> Error + CodecImpl
}.

(** The part of the registry that [Struct] uses: resolving a type name to a
    class ([typeToConstructor] on a string). *)
Record Registry := mkRegistry {
  createClass : string -> Error + CodecClass
}.

(** [TypesDef = Record<string, string | CodecClass>] and
    [CodecClassDef = Record<string, CodecClass>]. *)
Definition TypesDef := list (string * (string + CodecClass)).
Definition CodecClassDef := list (string * CodecClass).

(** ** The construction monad *)

(** The state: how many codec instances have been created so far. *)
Definition Heap := nat.
Definition M (A : Type) : Type := Heap -> (Error + A) * Heap.

Definition ret {A} (a : A) : M A := fun h => (inr a, h).
Definition throw {A} (e : Error) : M A := fun h => (inl e, h).
Definition bind {A B} (m : M A) (f : A -> M B) : M B :=
  fun h => match m h with
           | (inl e, h') => (inl e, h')
           | (inr a, h') => f a h'
           end.
Definition try_catch {A} (m : M A) (handler : Error -> M A) : M A :=
  fun h => match m h with
           | (inl e, h') => handler e h'
           | (inr a, h') => (inr a, h')
           end.
Definition lift {A} (r : Error + A) : M A := fun h => (r, h).

Notation "'let*' x ':=' c1 'in' c2" := (bind c1 (fun x => c2))
  (at level 10, x pattern, c1 at level 100, c2 at level 200, only parsing).

(** [new Type(registry, value)]: one more constructor call; the instance,
    if the constructor returns, is identified by the call. *)
Definition new_ (T : CodecClass) (v : JsValue) : M Codec :=
  fun h => match construct T v with
           | inl e => (inl e, S h)
           | inr i => (inr (mkCodec h i), S h)
           end.

(** [assert(cond, () => msg)]. *)
Definition assert (cond : bool) (msg : string) : M unit :=
  if cond then ret tt else throw (mkError msg).

(** ** JavaScript helpers *)

Definition isUndefined (v : JsValue) : bool :=
  match v with VUndefined => true | _ => false end.

Definition isArray (v : JsValue) : bool :=
  match v with VArray _ => true | _ => false end.

Definition isMap (v : JsValue) : bool :=
  match v with VMap _ => true | _ => false end.

Definition isU8a (v : JsValue) : bool :=
  match v with VU8a _ => true | _ => false end.

(** Truthiness, for [value || {}]. *)
Definition truthy (v : JsValue) : bool :=
  match v with
  | VUndefined | VNull => false
  | VBool b => b
  | VNumber n => negb (n =? 0)%Z
  | VString s => negb (String.eqb s "")
  | _ => true
  end.

Definition typeof (v : JsValue) : string :=
  match v with
  | VUndefined => "undefined"
  | VBool _ => "boolean"
  | VNumber _ => "number"
  | VString _ => "string"
  | VFunction _ => "function"
  | _ => "object"
  end.

(** [isObject (value) = !!value && typeof value === 'object']. *)
Definition isObject (v : JsValue) : bool :=
  truthy v && String.eqb (typeof v) "object".

(** [assign instanceof Type]. *)
Definition instanceOf (T : CodecClass) (v : JsValue) : option Codec :=
  match v with
  | VCodec c _ | VStruct c _ =>
      if bool_decide (elem_of (classId T) (proto (impl c))) then Some c else None
  | _ => None
  end.

(** Own properties of the objects that take the plain-object branch. *)
Definition ownProps (v : JsValue) : list (string * JsValue) :=
  match v with
  | VObject props | VCodec _ props => props
  | _ => []
  end.

(** The own property of a record under a key, if there is one. *)
Fixpoint ownProp {V} (props : list (string * V)) (k : string) : option V :=
  match props with
  | [] => None
  | (k', v) :: rest => if String.eqb k' k then Some v else ownProp rest k
  end.

(** Whose prototype chain a property read walks: that of a codec
    instance, or else [Object.prototype] alone. *)
Definition chainOf (v : JsValue) : option Codec :=
  match v with
  | VCodec c _ => Some c
  | _ => None
  end.

(** [value.get(jsonKey)] on a [Map]: only a string key is the same value as
    the string looked up. *)
Fixpoint mapGet (entries : list (JsValue * JsValue)) (k : string) : JsValue :=
  match entries with
  | [] => VUndefined
  | (VString k', v) :: rest => if String.eqb k' k then v else mapGet rest k
  | _ :: rest => mapGet rest k
  end.

(** The [Map] underneath a [Struct]: [set] overwrites in place or appends,
    [new Map(iterable)] sets the entries one after the other. *)
Fixpoint Map_set {V} (m : list (string * V)) (k : string) (v : V) : list (string * V) :=
  match m with
  | [] => [(k, v)]
  | (k', v') :: m' =>
      if String.eqb k' k then (k, v) :: m' else (k', v') :: Map_set m' k v
  end.

Definition Map_new {V} (it : list (string * V)) : list (string * V) :=
  fold_left (fun m kv => Map_set m kv.1 kv.2) it [].

Fixpoint Map_get {V} (m : list (string * V)) (k : string) : option V :=
  match m with
  | [] => None
  | (k', v) :: m' => if String.eqb k' k then Some v else Map_get m' k
  end.

(** [output[key] = value] on a record: like [Map_set], the key keeps its
    place when it is already there. *)
Definition propSet {V} (o : list (string * V)) (k : string) (v : V) : list (string * V) :=
  Map_set o k v.

(** [jsonKey && x]: the empty string is the one falsy string. *)
Definition andKey (jsonKey : string) (x : JsValue) : JsValue :=
  if String.eqb jsonKey "" then VString "" else x.

(** [keys.join(', ')]. *)
Fixpoint join (sep : string) (l : list string) : string :=
  match l with
  | [] => ""
  | [x] => x
  | x :: rest => x +:+ sep +:+ join sep rest
  end.

Definition arrayItems (v : JsValue) : list JsValue :=
  match v with VArray xs => xs | _ => [] end.

Definition mapEntries (v : JsValue) : list (JsValue * JsValue) :=
  match v with VMap es => es | _ => [] end.

(** ** Struct.ts *)

Section StructTs.

Variable registry : Registry.

(** Helpers of @polkadot/util that the file imports. *)
Variable stringCamelCase : string -> Error + string.
Variable stringify : JsValue -> string.
Variable isHex : string -> bool.
Variable hexToU8a : string -> list byte.

(** The prototype chain. [inherited None k] is the member that
    [Object.prototype] holds under [k], which a plain object finds when
    it has no own property [k]; [inherited (Some c) k] is what the codec
    instance [c] finds under [k] on the chain of its class. *)
Variable inherited : option Codec -> string -> option JsValue.

(** The same for the argument of [toU8a]: [inheritedFlag isBare k] is
    what [isBare[k]] finds when [isBare] has no own property [k]
    ([BareUndefined] when the chain has no such member either). *)
Variable inheritedFlag : BareOpts -> string -> BareOpts.

(** [value[k]] on the objects that take the plain-object branch: the own
    property, else the inherited member, else [undefined]. *)
Definition propGet (value : JsValue) (k : string) : JsValue :=
  match ownProp (ownProps value) k with
  | Some v => v
  | None => default VUndefined (inherited (chainOf value) k)
  end.

(** [jsonMap.get(key) || key]. *)
Definition jsonKeyOf (jsonMap : gmap string string) (key : string) : string :=
  match jsonMap !! key with
  | Some alias => if String.eqb alias "" then key else alias
  | None => key
  end.

(** The copy of the input object under camel-cased keys (lines 41-47):
    entries are written one after the other, a later one overwrites; the
    loop ends at the first key on which [stringCamelCase] throws. *)
Fixpoint camelCasedFrom (entries : list (string * JsValue))
    (jsonObj : gmap string JsValue) : Error + gmap string JsValue :=
  match entries with
  | [] => inr jsonObj
  | (k, v) :: rest =>
      match stringCamelCase k with
      | inl error => inl error
      | inr k' => camelCasedFrom rest (<[k' := v]> jsonObj)
      end
  end.

Definition camelCased (entries : list (string * JsValue)) : Error + gmap string JsValue :=
  camelCasedFrom entries empty.

(** [jsonObj[jsonKey]]: the copy starts as [{}], a plain object. *)
Definition objGet (jsonObj : gmap string JsValue) (k : string) : JsValue :=
  match jsonObj !! k with
  | Some v => v
  | None => default VUndefined (inherited None k)
  end.

(** Lines 32-52: the value assigned to field [i], and the camel-cased
    copy, which is made at most once; an error of [stringCamelCase] is
    thrown inside the [try]. *)
Definition assignField (value : JsValue) (jsonKey : string) (i : nat)
    (jsonObj : option (gmap string JsValue))
    : Error + JsValue * option (gmap string JsValue) :=
  if isArray value then
    inr (nth i (arrayItems value) VUndefined, jsonObj)
  else if isMap value then
    inr (andKey jsonKey (mapGet (mapEntries value) jsonKey), jsonObj)
  else
    let assign := andKey jsonKey (propGet value jsonKey) in
    if isUndefined assign then
      match (match jsonObj with
             | Some o => inr o
             | None => camelCased (ownProps value)
             end) with
      | inl error => inl error
      | inr jsonObj' => inr (andKey jsonKey (objGet jsonObj' jsonKey), Some jsonObj')
      end
    else inr (assign, jsonObj).

(** Lines 56-58. *)
Definition instanceOrNew (T : CodecClass) (assign : JsValue) : M Codec :=
  match instanceOf T assign with
  | Some c => ret c
  | None => new_ T assign
  end.

(** Lines 61-69: the handler of the [try]. *)
Definition failedOn (T : CodecClass) (jsonKey : string) (error : Error)
    : M (Codec * option (gmap string JsValue)) :=
  let* type := try_catch
            (let* c := new_ T VUndefined in ret (c_toRawType (impl c)))
            (fun _ => ret (className T)) in
  throw (mkError ("Struct: failed on " +:+ jsonKey +:+ ": " +:+ type +:+ ":: "
                  +:+ message error)).

(** The loop of lines 25-71; [raw] is returned in order. *)
Fixpoint decodeFields (value : JsValue) (jsonMap : gmap string string)
    (fields : CodecClassDef) (i : nat) (jsonObj : option (gmap string JsValue))
    : M (list (string * Codec)) :=
  match fields with
  | [] => ret []
  | (key, T) :: rest =>
      let jsonKey := jsonKeyOf jsonMap key in
      let* (c, jsonObj') :=
        try_catch
          (let* (assign, jsonObj') := lift (assignField value jsonKey i jsonObj) in
           let* c := instanceOrNew T assign in
           ret (c, jsonObj'))
          (failedOn T jsonKey) in
      let* raw := decodeFields value jsonMap rest (S i) jsonObj' in
      ret ((key, c) :: raw)
  end.

Definition cannotDecode (value : JsValue) : string :=
  "Struct: Cannot decode value " +:+ stringify value +:+ " (typeof "
  +:+ typeof value +:+ "), expected an input object, map or array".

Definition unableToMap (value : JsValue) (inputKeys : list string) : string :=
  "Struct: Unable to map " +:+ stringify value
  +:+ " array to object with known keys " +:+ join ", " inputKeys.

(** Lines 14-74. The constructor is the only caller and tests
    [instanceof Struct] first: a [Struct] does not reach this function. *)
Definition decodeStructFromObject (Types : CodecClassDef) (value : JsValue)
    (jsonMap : gmap string string) : M (list (string * Codec) * nat) :=
  let inputKeys := map fst Types in
  let typeofArray := isArray value in
  let typeofMap := isMap value in
  let* _ := assert (typeofArray || typeofMap || isObject value) (cannotDecode value) in
  let* _ := assert (negb typeofArray
               || Nat.eqb (length (arrayItems value)) (length inputKeys))
              (unableToMap value inputKeys) in
  let* raw := decodeFields value jsonMap Types 0 None in
  ret (raw, 0).

(** Modelled from the spec: [mapToTypeMap] and [typeToConstructor] of
    [../utils] are not part of the sources at hand. Every descriptor of a
    composite is resolved through the registry to a constructor before an
    instance is built, and a descriptor that does not resolve fails the
    construction; the result has the keys of [Types]. *)
Definition typeToConstructor (t : string + CodecClass) : Error + CodecClass :=
  match t with
  | inl name => createClass registry name
  | inr C => inr C
  end.

Fixpoint mapToTypeMapFrom (entries : TypesDef) (output : CodecClassDef)
    : Error + CodecClassDef :=
  match entries with
  | [] => inr output
  | (key, t) :: rest =>
      match typeToConstructor t with
      | inl e => inl e
      | inr C => mapToTypeMapFrom rest (propSet output key C)
      end
  end.

Definition mapToTypeMap (Types : TypesDef) : Error + CodecClassDef :=
  mapToTypeMapFrom Types [].

(** [value.initialU8aLength || value.encodedLength]. *)
Definition consumed (c : Codec) : nat :=
  match c_initialU8aLength (impl c) with
  | Some (S n) => S n
  | _ => c_encodedLength (impl c)
  end.

(** Modelled from the spec: [decodeU8a] of [../utils] is not part of the
    sources at hand. A struct is decoded from a byte buffer by decoding
    each field's codec in declared order on the bytes that remain, and
    summing the consumed lengths; a child's failure is reported with the
    field it belongs to. *)
Fixpoint decodeU8aFrom (u8a : list byte) (fields : CodecClassDef) (offset : nat)
    : M (list (string * Codec) * nat) :=
  match fields with
  | [] => ret ([], offset)
  | (key, T) :: rest =>
      let* value := try_catch (new_ T (VU8a (drop offset u8a)))
                 (fun error => throw (mkError ("decodeU8a: failed on " +:+ key
                                               +:+ ":: " +:+ message error))) in
      let* (result, total) := decodeU8aFrom u8a rest (offset + consumed value) in
      ret ((key, value) :: result, total)
  end.

Definition decodeU8a (u8a : list byte) (Types : CodecClassDef)
    : M (list (string * Codec) * nat) :=
  decodeU8aFrom u8a Types 0.

(** An instance: the underlying [Map] and the fields the constructor
    sets. *)
Record Struct := mkStruct {
  entries : list (string * Codec);
  initialU8aLength : nat;
  jsonMapOf : gmap string string;
  TypesOf : CodecClassDef
}.

(** [value || {}]. *)
Definition orEmptyObject (v : JsValue) : JsValue :=
  if truthy v then v else VObject [].

(** Lines 105-111: [isU8a], then [isHex], then [instanceof Struct], then
    everything else. *)
Definition decodeValue (typeMap : CodecClassDef) (value : JsValue)
    (jsonMap : gmap string string) : M (list (string * Codec) * nat) :=
  match value with
  | VU8a u8a => decodeU8a u8a typeMap
  | VString s =>
      if isHex s then decodeU8a (hexToU8a s) typeMap
      else decodeStructFromObject typeMap (orEmptyObject value) jsonMap
  | VStruct _ es => ret (es, 0)
  | _ => decodeStructFromObject typeMap (orEmptyObject value) jsonMap
  end.

(** The constructor, lines 103-119. *)
Definition Struct_new (Types : TypesDef) (value : JsValue)
    (jsonMap : gmap string string) : M Struct :=
  let* typeMap := lift (mapToTypeMap Types) in
  let* (decoded, decodedLength) := decodeValue typeMap value jsonMap in
  ret (mkStruct (Map_new decoded) decodedLength jsonMap typeMap).

(** *** Methods *)

(** Lines 136-138. *)
Definition defKeys (s : Struct) : list string := map fst (TypesOf s).

(** [this.values()] and [this.entries()] of the underlying [Map]. *)
Definition values (s : Struct) : list Codec := map snd (entries s).

(** Lines 147-155. *)
Fixpoint allEmpty (vs : list Codec) : bool :=
  match vs with
  | [] => true
  | v :: rest => if negb (c_isEmpty (impl v)) then false else allEmpty rest
  end.

Definition isEmpty (s : Struct) : bool := allEmpty (values s).

(** Lines 176-184. *)
Definition encodedLength (s : Struct) : nat :=
  fold_left (fun total v => total + c_encodedLength (impl v)) (values s) 0.

(** Lines 208-210. *)
Definition get (s : Struct) (name : string) : option Codec :=
  Map_get (entries s) name.

(** Lines 222-224. *)
Definition toArray (s : Struct) : list Codec := values s.

(** Lines 215-217; an index out of range reads [undefined]. *)
Definition getAtIndex (s : Struct) (index : nat) : option Codec :=
  toArray s !! index.

(** [isBare[k]] on a record of booleans: the own flag, else the
    inherited member. *)
Definition bareGet (r : list (string * bool)) (k : string) : BareOpts :=
  match ownProp r k with
  | Some b => BareBool b
  | None => inheritedFlag (BareRecord r) k
  end.

(** Lines 286-288: the argument handed to the field under key [k].
    [!isBare || isBoolean (isBare)] passes a falsy value or a boolean on
    as it is; of any other value the member [isBare[k]] is read. *)
Definition bareFor (isBare : BareOpts) (k : string) : BareOpts :=
  match isBare with
  | BareUndefined => BareUndefined
  | BareBool b => BareBool b
  | BareRecord r => bareGet r k
  | BareOther false _ => isBare
  | BareOther true _ => inheritedFlag isBare k
  end.

(** Lines 279-295; every value of the map is a codec, so the guard
    [v && isFunction(v.toU8a)] lets each of them through. *)
Fixpoint encodeEntries (es : list (string * Codec)) (isBare : BareOpts)
    (encoded : list (list byte)) : list (list byte) :=
  match es with
  | [] => encoded
  | (k, v) :: rest =>
      encodeEntries rest isBare (encoded ++ [c_toU8a (impl v) (bareFor isBare k)])
  end.

Definition toU8a (s : Struct) (isBare : BareOpts) : list byte :=
  concat (encodeEntries (entries s) isBare []).

(** [stringify (typesToMap (registry, Types))]: [typesToMap] of [../utils]
    and [stringify] of @polkadot/util, on a type map. *)
Variable stringifyTypes : CodecClassDef -> string.

(** Lines 264-266. *)
Definition toRawType (s : Struct) : string := stringifyTypes (TypesOf s).

(** The identity of the class [Struct] itself. *)
Definition StructId : nat := 0.

(** A struct as the field of another: what its parent sees of it. *)
Definition asCodecImpl (classes : list nat) (s : Struct) : CodecImpl :=
  mkCodecImpl classes (toU8a s) (encodedLength s) (isEmpty s) (toRawType s)
              (Some (initialU8aLength s)).

(** Lines 121-131: [Struct.with (Types, jsonMap)], an anonymous subclass
    of [Struct] (of identity [id]) whose constructor is the constructor of
    [Struct] at [Types] and [jsonMap]. The getters that [objectProperties]
    adds to the instance are not part of the model, and the instances that
    a child creates for its own fields are numbered on their own. *)
Definition Struct_with (id : nat) (Types : TypesDef) (jsonMap : gmap string string)
    : CodecClass :=
  mkClass "" id
    (fun value =>
       match (Struct_new Types value jsonMap 0).1 with
       | inl e => inl e
       | inr s => inr (asCodecImpl [id; StructId] s)
       end).

End StructTs.

(** ** Readings used in the statements *)

Section Readings.

Variable stringCamelCase : string -> Error + string.
Variable inherited : option Codec -> string -> option JsValue.

(** The value that the loop of [decodeStructFromObject] assigns to the
    field declared under [key] at position [i], or the error thrown
    while looking for it. *)
Definition fieldInput (value : JsValue) (jsonMap : gmap string string)
    (key : string) (i : nat) : Error + JsValue :=
  match assignField stringCamelCase inherited value (jsonKeyOf jsonMap key) i None with
  | inl error => inl error
  | inr (assign, _) => inr assign
  end.

(** The camel-cased copy of the input, once made, is the copy of the
    input. *)
Definition coherent (value : JsValue) (jsonObj : option (gmap string JsValue)) : Prop :=
  match jsonObj with
  | None => True
  | Some o => camelCased stringCamelCase (ownProps value) = inr o
  end.

(** [c] is the codec stored for a field of class [T] assigned [assign]:
    the assigned instance itself when it is an instance of [T], else what
    [new T(registry, assign)] builds. *)
Definition builtFrom (T : CodecClass) (assign : JsValue) (c : Codec) : Prop :=
  instanceOf T assign = Some c \/
  (instanceOf T assign = None /\ construct T assign = inr (impl c)).

Definition buildable (T : CodecClass) (assign : JsValue) : Prop :=
  instanceOf T assign <> None \/ exists i, construct T assign = inr i.

(** The loop finds a value for the field, and the field can be built
    from it. *)
Definition assignable (T : CodecClass) (input : Error + JsValue) : Prop :=
  exists assign, input = inr assign /\ buildable T assign.

(** The [try] of lines 31-59 throws [error] for a field of class [T]:
    looking for the field's value throws it, or the constructor of [T]
    does on the value found. *)
Definition fieldFails (T : CodecClass) (input : Error + JsValue) (error : Error) : Prop :=
  match input with
  | inl e => e = error
  | inr assign => instanceOf T assign = None /\ construct T assign = inl error
  end.

(** [c] is a default instance of [T]: what [new T(registry)] builds. *)
Definition isDefaultOf (T : CodecClass) (c : Codec) : Prop :=
  construct T VUndefined = inr (impl c).

(** Lines 61-67: the type named in a wrapped error. *)
Definition typeLabel (T : CodecClass) : string :=
  match construct T VUndefined with
  | inr i => c_toRawType i
  | inl _ => className T
  end.

(** Line 69. *)
Definition failedOnMessage (jsonKey type childMessage : string) : string :=
  "Struct: failed on " +:+ jsonKey +:+ ": " +:+ type +:+ ":: " +:+ childMessage.

(** The camel-cased key, when the helper returns one. *)
Definition camelKey (k : string) : option string :=
  match stringCamelCase k with
  | inr k' => Some k'
  | inl _ => None
  end.

(** The entry that a property becomes in the camel-cased copy. *)
Definition camelEntry (e : string * JsValue) : string * JsValue :=
  (default "" (camelKey e.1), e.2).

(** The entries under their camel-cased keys, or the error of the first
    key on which the helper throws. *)
Fixpoint camelKeys (entries : list (string * JsValue)) : Error + list (string * JsValue) :=
  match entries with
  | [] => inr []
  | (k, v) :: rest =>
      match stringCamelCase k with
      | inl error => inl error
      | inr k' =>
          match camelKeys rest with
          | inl error => inl error
          | inr es => inr ((k', v) :: es)
          end
      end
  end.

(** The value found under [k] among the camel-cased keys of [entries]:
    that of the last entry whose camel-cased key is [k], and when there
    is none what a plain object inherits under [k]. Nothing is found
    when a key cannot be camel-cased: the error is thrown. *)
Definition camelLookup (entries : list (string * JsValue)) (k : string) : Error + JsValue :=
  match camelKeys entries with
  | inl error => inl error
  | inr es =>
      inr (match find (fun e => String.eqb e.1 k) (rev es) with
           | Some e => e.2
           | None => default VUndefined (inherited None k)
           end)
  end.

(** Key lookup in an object-shaped input: the value that the object has
    under the key (its own property, else an inherited member), and when
    that is undefined the value under the same key among the camel-cased
    keys of the input. *)
Definition lookupObject (value : JsValue) (jsonKey : string) : Error + JsValue :=
  let direct := propGet inherited value jsonKey in
  if isUndefined direct then camelLookup (ownProps value) jsonKey else inr direct.

(** Key lookup in a map-shaped input: the value under the key. *)
Definition lookupMap (entries : list (JsValue * JsValue)) (jsonKey : string)
    : Error + JsValue :=
  inr (mapGet entries jsonKey).

(** Key lookup as the constructor makes it, by the shape of the input. *)
Definition lookupByShape (value : JsValue) (jsonKey : string) : Error + JsValue :=
  match value with
  | VMap es => lookupMap es jsonKey
  | _ => lookupObject value jsonKey
  end.

(** The string-keyed entries of a map- or object-shaped input. *)
Fixpoint stringKeyed (entries : list (JsValue * JsValue)) : list (string * JsValue) :=
  match entries with
  | [] => []
  | (VString k, v) :: rest => (k, v) :: stringKeyed rest
  | _ :: rest => stringKeyed rest
  end.

Definition keyedEntries (value : JsValue) : list (string * JsValue) :=
  match value with
  | VMap es => stringKeyed es
  | _ => ownProps value
  end.

(** Key lookup with a camel-case translation for either shape of input:
    the reading under which a map-shaped input would be treated like an
    object-shaped one. *)
Definition lookupEitherShape (value : JsValue) (jsonKey : string) : Error + JsValue :=
  lookupObject (VObject (keyedEntries value)) jsonKey.

(** The flags that [toU8a] may find on a prototype chain. *)
Variable inheritedFlag : BareOpts -> string -> BareOpts.

(** The encoding of the field under key [k], as [toU8a] asks for it. *)
Definition fieldU8a (s : Struct) (isBare : BareOpts) (k : string) : list byte :=
  match get s k with
  | Some c => c_toU8a (impl c) (bareFor inheritedFlag isBare k)
  | None => []
  end.

(** An input that is a [Struct] lists the keys [keys], in that order. *)
Definition structKeysAre (keys : list string) (value : JsValue) : Prop :=
  match value with
  | VStruct _ es => map fst es = keys
  | _ => True
  end.

(** The input is an array, a [Map] or an object, and not a [Struct]. *)
Definition isStructured (value : JsValue) : bool :=
  match value with
  | VArray _ | VMap _ | VObject _ | VCodec _ _ => true
  | _ => false
  end.

(** The input is a [Map] or an object, and not a [Struct]. *)
Definition isKeyed (value : JsValue) : bool :=
  match value with
  | VMap _ | VObject _ | VCodec _ _ => true
  | _ => false
  end.

(** An array-shaped input has as many items as there are fields. *)
Definition arityFits (typeMap : CodecClassDef) (value : JsValue) : Prop :=
  match value with
  | VArray xs => length xs = length typeMap
  | _ => True
  end.


End Readings.

(** ** Text *)

Module Text.

(** A string as its sequence of Unicode code points (for text of the
    basic plane, one code point per character of the JavaScript
    string). *)
Definition ustring := list N.

Definition byteOfN (n : N) : byte := default x00 (Byte.of_N (n mod 256)).

(** [k] bytes of [n], least significant first. *)
Fixpoint leBytes (k : nat) (n : N) : list byte :=
  match k with
  | 0 => []
  | S k' => byteOfN n :: leBytes k' (N.shiftr n 8)
  end.

(** Number of bytes needed for [n]. *)
Definition byteLen (n : N) : nat := N.to_nat ((N.size n + 7) / 8).

(** Modelled from the spec: the compact integer encoding (compactToU8a of
    @polkadot/util) is not part of the sources at hand. The low two bits
    of the first byte select the size class (one byte, two bytes, four
    bytes, or a length-prefixed big-integer form), bytes are
    little-endian, and the smallest valid class is chosen. *)
Definition compactToU8a (n : N) : list byte :=
  if (n <? 2 ^ 6)%N then leBytes 1 (N.shiftl n 2)
  else if (n <? 2 ^ 14)%N then leBytes 2 (N.lor (N.shiftl n 2) 1)
  else if (n <? 2 ^ 30)%N then leBytes 4 (N.lor (N.shiftl n 2) 2)
  else
    let len := Nat.max 4 (byteLen n) in
    byteOfN (N.lor (N.shiftl (N.of_nat len - 4) 2) 3) :: leBytes len n.

(** UTF-8 encoding of one code point. *)
Definition utf8 (cp : N) : list byte :=
  let cont (x : N) := byteOfN (N.lor 0x80 (N.land x 0x3F)) in
  if (cp <? 0x80)%N then [byteOfN cp]
  else if (cp <? 0x800)%N then
    [byteOfN (N.lor 0xC0 (N.shiftr cp 6)); cont cp]
  else if (cp <? 0x10000)%N then
    [byteOfN (N.lor 0xE0 (N.shiftr cp 12)); cont (N.shiftr cp 6); cont cp]
  else
    [byteOfN (N.lor 0xF0 (N.shiftr cp 18)); cont (N.shiftr cp 12);
     cont (N.shiftr cp 6); cont cp].

(** [stringToU8a]. *)
Definition stringToU8a (s : ustring) : list byte := flat_map utf8 s.

(** [compactAddLength]. *)
Definition compactAddLength (u8a : list byte) : list byte :=
  compactToU8a (N.of_nat (length u8a)) ++ u8a.

(** The value of a hexadecimal digit. *)
Definition hexDigit (c : N) : option N :=
  if ((48 <=? c) && (c <=? 57))%N then Some (c - 48)%N
  else if ((97 <=? c) && (c <=? 102))%N then Some (c - 87)%N
  else if ((65 <=? c) && (c <=? 70))%N then Some (c - 55)%N
  else None.

Fixpoint hexPairs (digits : ustring) : option (list byte) :=
  match digits with
  | [] => Some []
  | hi :: lo :: rest =>
      match hexDigit hi, hexDigit lo, hexPairs rest with
      | Some h, Some l, Some bytes => Some (byteOfN (16 * h + l) :: bytes)
      | _, _, _ => None
      end
  | _ => None
  end.

(** Modelled from the spec: a hex string is [0x]-prefixed and is decoded
    to bytes first ([isHex] and [hexToU8a] of @polkadot/util are not part
    of the sources at hand). The bytes that a string in hex form stands
    for: [0x] and then an even number of hexadecimal digits. *)
Definition hexBytes (s : ustring) : option (list byte) :=
  match s with
  | 48%N :: 120%N :: digits => hexPairs digits
  | _ => None
  end.

(** [isHex] and [hexToU8a]. *)
Definition isHex (s : ustring) : bool :=
  match hexBytes s with Some _ => true | None => false end.

Definition hexToU8a (s : ustring) : list byte := default [] (hexBytes s).

(** Modelled from the spec: text is UTF-8 ([u8aToString] of
    @polkadot/util is not part of the sources at hand). UTF-8 decoding
    as a text decoder does it: [cp] is the code point under way,
    [needed] the number of bytes it still lacks, [lower] and [upper] the
    bounds of the next byte; a byte out of place gives the replacement
    character U+FFFD and is read again as a first byte. *)
Fixpoint utf8Decode (bytes : list N) (cp : N) (needed : nat) (lower upper : N)
    : ustring :=
  match bytes with
  | [] => match needed with 0 => [] | S _ => [0xFFFD%N] end
  | b :: rest =>
      let first :=
        if (b <=? 0x7F)%N then b :: utf8Decode rest 0%N 0 0x80%N 0xBF%N
        else if ((0xC2 <=? b) && (b <=? 0xDF))%N then
          utf8Decode rest (N.land b 0x1F) 1 0x80%N 0xBF%N
        else if ((0xE0 <=? b) && (b <=? 0xEF))%N then
          utf8Decode rest (N.land b 0xF) 2
            (if (b =? 0xE0)%N then 0xA0%N else 0x80%N)
            (if (b =? 0xED)%N then 0x9F%N else 0xBF%N)
        else if ((0xF0 <=? b) && (b <=? 0xF4))%N then
          utf8Decode rest (N.land b 0x7) 3
            (if (b =? 0xF0)%N then 0x90%N else 0x80%N)
            (if (b =? 0xF4)%N then 0x8F%N else 0xBF%N)
        else 0xFFFD%N :: utf8Decode rest 0%N 0 0x80%N 0xBF%N in
      match needed with
      | 0 => first
      | S n =>
          if ((b <? lower) || (upper <? b))%N then 0xFFFD%N :: first
          else
            let cp' := N.lor (N.shiftl cp 6) (N.land b 0x3F) in
            match n with
            | 0 => cp' :: utf8Decode rest 0%N 0 0x80%N 0xBF%N
            | S _ => utf8Decode rest cp' n 0x80%N 0xBF%N
            end
      end
  end.

(** [u8aToString]: a byte order mark at the head of the bytes is not
    part of the text. *)
Definition u8aToString (u8a : list byte) : ustring :=
  let bytes := map Byte.to_N u8a in
  utf8Decode
    (match bytes with
     | 0xEF%N :: 0xBB%N :: 0xBF%N :: rest => rest
     | _ => bytes
     end) 0%N 0 0x80%N 0xBF%N.

(** The inputs of the constructor that the tests of this file exercise:
    nothing, [null], or a string, plain or in hex form (a value with a
    string conversion is its string). *)
Inductive Input :=
| InUndefined
| InNull
| InString (s : ustring).

(** Modelled from the spec: the Text codec (Text.ts) is not part of the
    sources at hand, only its tests are. A text decodes from a plain
    string; a hex string is decoded to bytes first, and the bytes are
    read as UTF-8; a null or absent input decodes to the empty text; it
    encodes by compact-length-prefixing the UTF-8 bytes of the string;
    its encoded length is the length of that encoding, its logical
    length the number of characters. *)
Record Text := mkText { str : ustring }.

Definition new_ (input : Input) : Text :=
  match input with
  | InUndefined | InNull => mkText []
  | InString s =>
      if isHex s then mkText (u8aToString (hexToU8a s)) else mkText s
  end.

Definition toString (t : Text) : ustring := str t.

Definition toU8a (t : Text) (isBare : bool) : list byte :=
  let encoded := stringToU8a (toString t) in
  if isBare then encoded else compactAddLength encoded.

Definition encodedLength (t : Text) : nat := List.length (toU8a t false).

Definition length (t : Text) : nat := List.length (str t).

Definition isEmpty (t : Text) : bool :=
  match str t with [] => true | _ => false end.

End Text.

(** ** Fixtures for the worked examples *)

Module Fixtures.

(** A child codec in the shape of [u8]: one byte, default zero. *)
Definition u8Impl (n : N) (fromBytes : bool) : CodecImpl :=
  mkCodecImpl [1] (fun _ => [Text.byteOfN n]) 1 (n =? 0)%N "u8"
              (if fromBytes then Some 1 else None).

Definition U8 : CodecClass :=
  mkClass "U8" 1
    (fun v =>
       match v with
       | VUndefined | VNull => inr (u8Impl 0 false)
       | VNumber n =>
           if ((0 <=? n) && (n <? 256))%Z then inr (u8Impl (Z.to_N n) false)
           else inl (mkError "u8: value out of range")
       | VU8a (b :: _) => inr (u8Impl (Byte.to_N b) true)
       | _ => inl (mkError "u8: cannot decode the input")
       end).

Definition registry : Registry :=
  mkRegistry (fun name =>
    if String.eqb name "u8" then inr U8
    else inl (mkError ("cannot resolve the type " +:+ name))).

(** An instance of [stringCamelCase] for identifiers made of ASCII
    letters: the separators [-_., ] are dropped, the first letter is
    lower-cased and a letter that follows a separator is upper-cased. *)
Definition isSeparator (c : ascii) : bool :=
  bool_decide (elem_of c ["-"; "_"; "."; ","; " "]%char).

Definition upper (c : ascii) : ascii :=
  let n := nat_of_ascii c in
  if Nat.leb 97 n && Nat.leb n 122 then ascii_of_nat (n - 32) else c.

Definition lower (c : ascii) : ascii :=
  let n := nat_of_ascii c in
  if Nat.leb 65 n && Nat.leb n 90 then ascii_of_nat (n + 32) else c.

Fixpoint camelFrom (s : string) (first start : bool) : string :=
  match s with
  | EmptyString => EmptyString
  | String c rest =>
      if isSeparator c then camelFrom rest first true
      else String (if first then lower c else if start then upper c else c)
                  (camelFrom rest false false)
  end.

(** The key holds a word: a character that is not a separator. *)
Fixpoint hasWord (s : string) : bool :=
  match s with
  | EmptyString => false
  | String c rest => negb (isSeparator c) || hasWord rest
  end.

(** On a key without a word the helper reads the first letter of a word
    that is not there, and throws. *)
Definition stringCamelCase (s : string) : Error + string :=
  if hasWord s then inr (camelFrom s true true)
  else inl (mkError "Cannot read properties of undefined (reading 'toUpperCase')").

Definition stringify (v : JsValue) : string :=
  match v with
  | VArray _ => "[...]"
  | VString s => s
  | _ => "{...}"
  end.

Definition isHex (s : string) : bool := String.prefix "0x" s.

Definition hexToU8a (s : string) : list byte := [].

Definition stringifyTypes (typeMap : CodecClassDef) : string :=
  "{" +:+ join ", " (map fst typeMap) +:+ "}".

(** The members of [Object.prototype]: functions, and [__proto__], which
    reads the prototype itself, an object without enumerable properties.
    The codec instances of the examples find no others. *)
Definition objectPrototype : list string :=
  ["constructor"; "hasOwnProperty"; "isPrototypeOf"; "propertyIsEnumerable";
   "toLocaleString"; "toString"; "valueOf"; "__defineGetter__";
   "__defineSetter__"; "__lookupGetter__"; "__lookupSetter__"].

Definition inherited (chain : option Codec) (k : string) : option JsValue :=
  if String.eqb k "__proto__" then Some (VObject [])
  else if bool_decide (elem_of k objectPrototype) then Some (VFunction k)
  else None.

Definition inheritedFlag (isBare : BareOpts) (k : string) : BareOpts :=
  if String.eqb k "__proto__" || bool_decide (elem_of k objectPrototype)
  then BareOther true k
  else BareUndefined.

Definition Struct_new :=
  Struct_new registry stringCamelCase stringify isHex hexToU8a inherited.

(** The struct that a construction returns. *)
Definition built (r : (Error + Struct) * Heap) : Struct :=
  match r with
  | (inr s, _) => s
  | (inl _, _) => mkStruct [] 0 empty []
  end.

(** Two fields, declared as [a] then [b], and as [b] then [a]. *)
Definition abTypes : TypesDef := [("a", inr U8); ("b", inl "u8")].
Definition baTypes : TypesDef := [("b", inr U8); ("a", inr U8)].
Definition abTypeMap : CodecClassDef := [("a", U8); ("b", U8)].

(** The object [{ b: 2, a: 1 }]. *)
Definition baObject : JsValue := VObject [("b", VNumber 2); ("a", VNumber 1)].

Definition abStruct : Struct := built (Struct_new abTypes baObject empty 0).
Definition baStruct : Struct := built (Struct_new baTypes baObject empty 0).

(** The identity of [baStruct] as a value (it is not looked at). *)
Definition self : Codec := mkCodec 2 (mkCodecImpl [0] (fun _ => []) 2 false "{}" None).

(** A struct declared as [a] then [b], constructed from [baStruct]. *)
Definition swapped : Struct :=
  built (Struct_new abTypes (VStruct self (entries baStruct)) empty 3).

(** One field [fooBar], and inputs that spell it [foo_bar]. *)
Definition fooTypes : TypesDef := [("fooBar", inr U8)].
Definition fooTypeMap : CodecClassDef := [("fooBar", U8)].
Definition fooObject : JsValue := VObject [("foo_bar", VNumber 2)].
Definition fooMap : JsValue := VMap [(VString "foo_bar", VNumber 2)].
Definition fooFromMap : Struct := built (Struct_new fooTypes fooMap empty 0).

(** A struct [{ inner: { b: u8 } }]: its one field is a struct. *)
Definition Inner : CodecClass :=
  Struct_with registry stringCamelCase stringify isHex hexToU8a inherited
    inheritedFlag stringifyTypes 2 [("b", inr U8)] empty.
Definition nestedTypes : TypesDef := [("inner", inr Inner)].

(** The object [{ inner: { b: 'x' } }]. *)
Definition nestedObject : JsValue := VObject [("inner", VObject [("b", VString "x")])].

(** The field [b] goes by [second] in JSON. *)
Definition secondMap : gmap string string := <["b" := "second"]> empty.


(** The object [{ b: 2, _: 9 }]: its second key holds no word. *)
Definition badKeyObject : JsValue := VObject [("b", VNumber 2); ("_", VNumber 9)].

(** The text of the two characters U+4E2D U+6587. *)
Definition zhongwen : Text.ustring := [0x4E2D; 0x6587]%N.

(** The string [0x12345678], which is in hex form. *)
Definition hexInput : Text.ustring := [48; 120; 49; 50; 51; 52; 53; 54; 55; 56]%N.

End Fixtures.

(** ** Struct.ts: the projections and the type description *)

Section StructTsProjections.

(** [v.toJSON()] and [v.toHuman(isExtended)] of a child codec, as
    functions of the instance. *)
Variable toJSONOf : Codec -> JsValue.
Variable toHumanOf : option bool -> Codec -> JsValue.

(** Lines 236-244; every value of the map is a codec, so [v && ...] is
    the call. *)
Fixpoint toHumanFrom (isExtended : option bool) (es : list (string * Codec))
    (json : list (string * JsValue)) : list (string * JsValue) :=
  match es with
  | [] => json
  | (k, v) :: rest =>
      toHumanFrom isExtended rest (propSet json k (toHumanOf isExtended v))
  end.

Definition toHuman (s : Struct) (isExtended : option bool) : list (string * JsValue) :=
  toHumanFrom isExtended (entries s) [].

(** Lines 249-259. *)
Fixpoint toJSONFrom (jsonMap : gmap string string) (es : list (string * Codec))
    (json : list (string * JsValue)) : list (string * JsValue) :=
  match es with
  | [] => json
  | (k, v) :: rest =>
      let jsonKey := jsonKeyOf jsonMap k in
      toJSONFrom jsonMap rest (propSet json jsonKey (toJSONOf v))
  end.

Definition toJSON (s : Struct) : list (string * JsValue) :=
  toJSONFrom (jsonMapOf s) (entries s) [].

End StructTsProjections.

(** Lines 160-171: the getter [Type]. *)
Fixpoint TypeFrom (defs : CodecClassDef) (result : list (string * string))
    : M (list (string * string)) :=
  match defs with
  | [] => ret result
  | (key, T) :: rest =>
      let* c := new_ T VUndefined in
      TypeFrom rest (propSet result key (c_toRawType (impl c)))
  end.

Definition Type_ (s : Struct) : M (list (string * string)) :=
  TypeFrom (TypesOf s) [].

(** Lines 140-142. *)
Definition getT (s : Struct) (key : string) : option Codec := get s key.

(** ** Further readings *)

(** Two runs end alike: both return the same value, or both throw, and
    after the same number of constructor calls. *)
Definition sameOutcome {A} (r1 r2 : (Error + A) * Heap) : Prop :=
  match r1, r2 with
  | (inr a1, h1), (inr a2, h2) => a1 = a2 /\ h1 = h2
  | (inl _, h1), (inl _, h2) => h1 = h2
  | _, _ => False
  end.

(** The last entry of [es] whose JSON key is [jsonKey]. *)
Definition lastUnder (jsonMap : gmap string string) (es : list (string * Codec))
    (jsonKey : string) : option Codec :=
  match find (fun e => String.eqb (jsonKeyOf jsonMap e.1) jsonKey) (rev es) with
  | Some e => Some e.2
  | None => None
  end.

(** The input is a primitive value. *)
Definition isPrimitive (value : JsValue) : bool :=
  match value with
  | VUndefined | VNull | VBool _ | VNumber _ | VString _ => true
  | _ => false
  end.

(** A string input is not in hex form. *)
Definition notHex (isHex : string -> bool) (value : JsValue) : Prop :=
  match value with
  | VString s => isHex s = false
  | _ => True
  end.

(** The input is decoded as bytes: a [Uint8Array] or a hex string. *)
Definition isBytes (isHex : string -> bool) (value : JsValue) : bool :=
  match value with
  | VU8a _ => true
  | VString s => isHex s
  | _ => false
  end.

(** What a construction leaves in the map, or the error. *)
Definition builtEntries (r : (Error + Struct) * Heap)
    : (Error + list (string * Codec)) * Heap :=
  match r with
  | (inr s, h) => (inr (entries s), h)
  | (inl e, h) => (inl e, h)
  end.

Module MoreFixtures.

(** The JSON of a [u8]: its number. *)
Definition toJSONOf (c : Codec) : JsValue :=
  match c_toU8a (impl c) BareUndefined with
  | b :: _ => VNumber (Z.of_N (Byte.to_N b))
  | [] => VNull
  end.

Definition toHumanOf (isExtended : option bool) (c : Codec) : JsValue :=
  toJSONOf c.

(** The field [a] goes by [alpha] in JSON. *)
Definition aliasMap : gmap string string := <["a" := "alpha"]> empty.

(** A class without a default: it accepts numbers only. *)
Definition Strict : CodecClass :=
  mkClass "Strict" 3
    (fun v =>
       match v with
       | VNumber n => inr (Fixtures.u8Impl (Z.to_N n) false)
       | _ => inl (mkError "strict: a number is required")
       end).

Definition strictTypes : TypesDef := [("a", inr Fixtures.U8); ("s", inr Strict)].

(** Two instances of [u8] that exist already. *)
Definition one : Codec := mkCodec 7 (Fixtures.u8Impl 1 false).
Definition two : Codec := mkCodec 8 (Fixtures.u8Impl 2 false).

(** A class that builds from anything: a number is itself, the rest is 0. *)
Definition Tolerant : CodecClass :=
  mkClass "Tolerant" 4
    (fun v =>
       match v with
       | VNumber n => inr (Fixtures.u8Impl (Z.to_N n) false)
       | _ => inr (Fixtures.u8Impl 0 false)
       end).

(** A struct whose one field has the empty name. *)
Definition namelessTypes : TypesDef := [("", inr Tolerant)].
Definition namelessTypeMap : CodecClassDef := [("", Tolerant)].
Definition namelessObject : JsValue := VObject [("", VNumber 5)].
Definition nameless : Struct :=
  Fixtures.built (Fixtures.Struct_new namelessTypes namelessObject empty 0).

(** The object [{ a: 1, b: 2 }], read with the alias [alpha] for [a]. *)
Definition abObject : JsValue := VObject [("a", VNumber 1); ("b", VNumber 2)].
Definition aliased : Struct :=
  Fixtures.built (Fixtures.Struct_new Fixtures.abTypes abObject aliasMap 0).

(** The object [{ alpha: 1, b: 2 }], read with the alias. *)
Definition alphaObject : JsValue := VObject [("alpha", VNumber 1); ("b", VNumber 2)].
Definition alpha : Struct :=
  Fixtures.built (Fixtures.Struct_new Fixtures.abTypes alphaObject aliasMap 0).
Definition alphaAgain : Struct :=
  Fixtures.built (Fixtures.Struct_new Fixtures.abTypes
                    (VObject (toJSON toJSONOf alpha)) aliasMap 2).

(** A struct with a field whose type has no default. *)
Definition strict : Struct :=
  Fixtures.built (Fixtures.Struct_new strictTypes (VArray [VNumber 1; VNumber 2]) empty 0).

End MoreFixtures.

(** * Properties *)

(** ** The monad *)

Lemma bind_inr {A B} (m : M A) (f : A -> M B) h b h' :
  bind m f h = (inr b, h') ->
  exists a h1, m h = (inr a, h1) /\ f a h1 = (inr b, h').
Proof.
  unfold bind. destruct (m h) as [[e|a] h1]; [discriminate|]. eauto.
Qed.

Lemma new_ok T v h c h' :
  new_ T v h = (inr c, h') <-> construct T v = inr (impl c) /\ oid c = h /\ h' = S h.
Proof.
  unfold new_. destruct (construct T v) as [e|i]; split.
  - discriminate.
  - by intros [? _].
  - intros [= <- <-]. done.
  - intros ([= ->] & <- & ->). by destruct c.
Qed.

(** ** The underlying map *)

Section MapFacts.
Context {V : Type}.
Implicit Types (m it : list (string * V)) (k : string) (v : V).

Lemma Map_set_fresh m k v :
  ~ elem_of k (map fst m) -> Map_set m k v = m ++ [(k, v)].
Proof.
  induction m as [|[k' v'] m IH]; simpl; [done|].
  intros Hk. destruct (String.eqb_spec k' k) as [->|Hne].
  - exfalso. apply Hk. by left.
  - f_equal. apply IH. intros Hin. apply Hk. by right.
Qed.

Lemma Map_set_keys m k v :
  map fst (Map_set m k v) =
  if bool_decide (elem_of k (map fst m)) then map fst m else map fst m ++ [k].
Proof.
  induction m as [|[k' v'] m IH]; simpl; [done|].
  destruct (String.eqb_spec k' k) as [->|Hne]; simpl.
  - rewrite bool_decide_eq_true_2; [done | by left].
  - rewrite IH. case_bool_decide as H1; case_bool_decide as H2; try done.
    + exfalso. apply H2. by right.
    + apply elem_of_cons in H2 as [->|?]; done.
Qed.

Lemma Map_set_NoDup m k v :
  NoDup (map fst m) -> NoDup (map fst (Map_set m k v)).
Proof.
  intros Hnd. rewrite Map_set_keys. case_bool_decide; [done|].
  apply NoDup_app. split_and!; [done | | apply NoDup_singleton].
  intros x Hx ->%list_elem_of_singleton. done.
Qed.

Lemma fold_Map_set_NoDup it m :
  NoDup (map fst m) ->
  NoDup (map fst (fold_left (fun m kv => Map_set m kv.1 kv.2) it m)).
Proof.
  revert m. induction it as [|[k v] it IH]; simpl; [done|].
  intros m Hm. apply IH, Map_set_NoDup, Hm.
Qed.

(** Whatever it is built from, a [Map] has no key twice. *)
Lemma Map_new_NoDup it : NoDup (map fst (Map_new it)).
Proof. apply fold_Map_set_NoDup. constructor. Qed.

Lemma fold_Map_set_fresh it m :
  NoDup (map fst (m ++ it)) ->
  fold_left (fun m kv => Map_set m kv.1 kv.2) it m = m ++ it.
Proof.
  revert m. induction it as [|[k v] it IH]; simpl; intros m Hnd.
  - by rewrite app_nil_r.
  - rewrite Map_set_fresh.
    + rewrite IH; rewrite <- app_assoc; done.
    + rewrite map_app in Hnd. apply NoDup_app in Hnd as (_ & Hdisj & _).
      intros Hin. apply (Hdisj k Hin). by left.
Qed.

(** Entries with distinct keys are kept as they come. *)
Lemma Map_new_id it : NoDup (map fst it) -> Map_new it = it.
Proof. intros Hnd. unfold Map_new. by rewrite fold_Map_set_fresh. Qed.

Lemma Map_get_lookup m i k v :
  NoDup (map fst m) -> m !! i = Some (k, v) -> Map_get m k = Some v.
Proof.
  revert i. induction m as [|[k' v'] m IH]; intros i Hnd Hi; [done|].
  simpl. apply NoDup_cons in Hnd as [Hk' Hnd].
  destruct i as [|i]; simpl in Hi.
  - injection Hi as -> ->. by rewrite String.eqb_refl.
  - destruct (String.eqb_spec k' k) as [->|Hne]; [|by eapply IH].
    exfalso. apply Hk'. apply list_elem_of_fmap. exists (k, v). split; [done|].
    by eapply list_elem_of_lookup_2.
Qed.

End MapFacts.

(** ** Resolving the declared types *)

Section TypeMapFacts.
Variable registry : Registry.

Lemma mapToTypeMapFrom_NoDup Types output typeMap :
  mapToTypeMapFrom registry Types output = inr typeMap ->
  NoDup (map fst output) -> NoDup (map fst typeMap).
Proof.
  revert output. induction Types as [|[key t] Types IH]; simpl; intros output.
  - by intros [= ->].
  - destruct (typeToConstructor registry t) as [e|C]; [discriminate|].
    intros H Hnd. eapply IH; [exact H|]. by apply Map_set_NoDup.
Qed.

Lemma mapToTypeMapFrom_keys Types output typeMap :
  mapToTypeMapFrom registry Types output = inr typeMap ->
  NoDup (map fst output ++ map fst Types) ->
  map fst typeMap = map fst output ++ map fst Types.
Proof.
  revert output. induction Types as [|[key t] Types IH]; simpl; intros output.
  - intros [= ->] _. by rewrite app_nil_r.
  - destruct (typeToConstructor registry t) as [e|C]; [discriminate|].
    intros H Hnd. unfold propSet in H.
    assert (~ elem_of key (map fst output)) as Hfresh.
    { apply NoDup_app in Hnd as (_ & Hdisj & _).
      intros Hin. apply (Hdisj key Hin). by left. }
    rewrite Map_set_fresh in H by done.
    rewrite (IH _ H); rewrite map_app; simpl; rewrite <- app_assoc; done.
Qed.

(** The type map has each key once. *)
Lemma mapToTypeMap_NoDup Types typeMap :
  mapToTypeMap registry Types = inr typeMap -> NoDup (map fst typeMap).
Proof. intros H. eapply mapToTypeMapFrom_NoDup; [exact H | constructor]. Qed.

(** It lists the keys of [Types], in the order of [Types]. *)
Lemma mapToTypeMap_keys Types typeMap :
  mapToTypeMap registry Types = inr typeMap ->
  NoDup (map fst Types) -> map fst typeMap = map fst Types.
Proof. intros H Hnd. by rewrite (mapToTypeMapFrom_keys _ _ _ H). Qed.

End TypeMapFacts.

(** ** The loop of [decodeStructFromObject] *)

Section DecodeFacts.
Variable stringCamelCase : string -> Error + string.
Variable inherited : option Codec -> string -> option JsValue.

Local Abbreviation assignField := (assignField stringCamelCase inherited).
Local Abbreviation decodeFields := (decodeFields stringCamelCase inherited).
Local Abbreviation fieldInput := (fieldInput stringCamelCase inherited).
Local Abbreviation camelCased := (camelCased stringCamelCase).
Local Abbreviation coherent := (coherent stringCamelCase).

(** With the camel-cased copy at hand or not, a field is assigned the
    same value, or the same error is thrown. *)
Lemma assignField_coherent value jsonMap key i jsonObj :
  coherent value jsonObj ->
  match assignField value (jsonKeyOf jsonMap key) i jsonObj with
  | inl e => fieldInput value jsonMap key i = inl e
  | inr (assign, jsonObj') =>
      fieldInput value jsonMap key i = inr assign /\ coherent value jsonObj'
  end.
Proof.
  intros Hc. unfold fieldInput, assignField.
  destruct (isArray value); [by split|].
  destruct (isMap value); [by split|].
  destruct (isUndefined _); [|by split].
  destruct jsonObj as [o|]; simpl in Hc.
  - by rewrite Hc.
  - by destruct (camelCased (ownProps value)) eqn:Hcopy.
Qed.

Lemma instanceOrNew_ok T assign h c h' :
  instanceOrNew T assign h = (inr c, h') -> builtFrom T assign c.
Proof.
  unfold instanceOrNew, builtFrom. destruct (instanceOf T assign) as [c'|].
  - intros [= -> _]. by left.
  - intros (Hc & _ & _)%new_ok. by right.
Qed.

Lemma instanceOrNew_buildable T assign h :
  buildable T assign -> exists c h', instanceOrNew T assign h = (inr c, h').
Proof.
  unfold instanceOrNew, buildable.
  destruct (instanceOf T assign) as [c|]; [by eauto|].
  intros [?|[i Hi]]; [done|]. unfold new_. rewrite Hi. eauto.
Qed.

Lemma instanceOrNew_throws T assign h cerr :
  instanceOf T assign = None -> construct T assign = inl cerr ->
  instanceOrNew T assign h = (inl cerr, S h).
Proof. unfold instanceOrNew, new_. by intros -> ->. Qed.

Lemma instanceOrNew_heap T assign h r h' :
  instanceOrNew T assign h = (r, h') ->
  match instanceOf T assign with
  | Some c => r = inr c /\ h' = h
  | None => h' = S h /\ forall c, r = inr c -> oid c = h
  end.
Proof.
  unfold instanceOrNew, new_, ret. destruct (instanceOf T assign) as [c0|].
  - by intros [= <- <-].
  - destruct (construct T assign) as [e|im]; intros [= <- <-]; split; try done.
    by intros c' [= <-].
Qed.

(** The handler makes one constructor call and throws the wrapped
    message. *)
Lemma failedOn_step T jsonKey error h :
  failedOn T jsonKey error h
  = (inl (mkError (failedOnMessage jsonKey (typeLabel T) (message error))), S h).
Proof.
  unfold failedOn, typeLabel, failedOnMessage, bind, try_catch, new_, ret, throw.
  by destruct (construct T VUndefined).
Qed.

(** One turn of the loop: looking for the field's value throws, or the
    constructor throws, or the field is built and the loop goes on. *)
Lemma decodeFields_step value jsonMap key T rest i jsonObj h :
  coherent value jsonObj ->
  match fieldInput value jsonMap key i with
  | inl e =>
      decodeFields value jsonMap ((key, T) :: rest) i jsonObj h
      = (inl (mkError (failedOnMessage (jsonKeyOf jsonMap key) (typeLabel T)
                                       (message e))), S h)
  | inr assign =>
      match instanceOrNew T assign h with
      | (inl e, h1) =>
          decodeFields value jsonMap ((key, T) :: rest) i jsonObj h
          = (inl (mkError (failedOnMessage (jsonKeyOf jsonMap key) (typeLabel T)
                                           (message e))), S h1)
      | (inr c, h1) =>
          exists jsonObj',
            coherent value jsonObj' /\
            decodeFields value jsonMap ((key, T) :: rest) i jsonObj h
            = bind (decodeFields value jsonMap rest (S i) jsonObj')
                   (fun raw => ret ((key, c) :: raw)) h1
      end
  end.
Proof.
  intros Hco.
  pose proof (assignField_coherent value jsonMap key i jsonObj Hco) as Ha.
  simpl. unfold bind, try_catch, lift.
  destruct (assignField value (jsonKeyOf jsonMap key) i jsonObj) as [e|[assign jo]].
  - rewrite Ha. by rewrite failedOn_step.
  - destruct Ha as [-> Hco'].
    destruct (instanceOrNew T assign h) as [[e|c] h1].
    + by rewrite failedOn_step.
    + exists jo. done.
Qed.

(** A return of the loop: field by field, in order, each codec built from
    the value assigned to its field. *)
Lemma decodeFields_ok value jsonMap fields i jsonObj h raw h' :
  coherent value jsonObj ->
  decodeFields value jsonMap fields i jsonObj h = (inr raw, h') ->
  map fst raw = map fst fields /\
  forall j key T, fields !! j = Some (key, T) ->
    exists assign c,
      fieldInput value jsonMap key (i + j) = inr assign /\
      raw !! j = Some (key, c) /\ builtFrom T assign c.
Proof.
  revert i jsonObj h raw. induction fields as [|[key T] rest IH];
    intros i jsonObj h raw Hco.
  - intros [= <- _]. split; [done|]. intros j ? ? Hj. done.
  - intros Hrun.
    pose proof (decodeFields_step value jsonMap key T rest i jsonObj h Hco) as Hstep.
    destruct (fieldInput value jsonMap key i) as [e|assign] eqn:Hin.
    { rewrite Hstep in Hrun. discriminate. }
    destruct (instanceOrNew T assign h) as [[e|c] h1] eqn:Hnew.
    { rewrite Hstep in Hrun. discriminate. }
    destruct Hstep as (jo & Hco' & Hstep). rewrite Hstep in Hrun.
    apply bind_inr in Hrun as (raw' & h2 & Hrest & Hret).
    injection Hret as <- <-.
    destruct (IH _ _ _ _ Hco' Hrest) as [Hkeys Hall].
    split; [simpl; by f_equal|].
    intros [|j] key' T' Hj; simpl in Hj.
    + injection Hj as <- <-. exists assign, c. rewrite Nat.add_0_r.
      split_and!; try done. by eapply instanceOrNew_ok.
    + destruct (Hall j key' T' Hj) as (a' & c' & Ha' & Hc' & Hb).
      exists a', c'. split_and!; try done. by rewrite <- Nat.add_succ_comm.
Qed.

(** The loop returns when every field is assigned a value from which it
    can be built. *)
Lemma decodeFields_total value jsonMap fields i jsonObj h :
  coherent value jsonObj ->
  (forall j key T, fields !! j = Some (key, T) ->
     assignable T (fieldInput value jsonMap key (i + j))) ->
  exists raw h', decodeFields value jsonMap fields i jsonObj h = (inr raw, h').
Proof.
  revert i jsonObj h. induction fields as [|[key T] rest IH];
    intros i jsonObj h Hco Hall.
  - simpl. unfold ret. eauto.
  - pose proof (decodeFields_step value jsonMap key T rest i jsonObj h Hco) as Hstep.
    destruct (Hall 0 key T eq_refl) as (assign & Hin & Hb).
    rewrite Nat.add_0_r in Hin. rewrite Hin in Hstep.
    destruct (instanceOrNew_buildable T assign h Hb) as (c & h1 & Hc).
    rewrite Hc in Hstep. destruct Hstep as (jo & Hco' & ->).
    destruct (IH (S i) jo h1 Hco') as (raw & h2 & Hrest).
    { intros j key' T' Hj. rewrite Nat.add_succ_comm. by apply (Hall (S j)). }
    unfold bind. rewrite Hrest. unfold ret. eauto.
Qed.

(** The loop throws at the first field for which the [try] throws, and
    what it throws is the message under the field's key and type. *)
Lemma decodeFields_throws value jsonMap pre key T post i jsonObj h cerr :
  coherent value jsonObj ->
  (forall j key' T', pre !! j = Some (key', T') ->
     assignable T' (fieldInput value jsonMap key' (i + j))) ->
  fieldFails T (fieldInput value jsonMap key (i + length pre)) cerr ->
  exists h', decodeFields value jsonMap (pre ++ (key, T) :: post) i jsonObj h
             = (inl (mkError (failedOnMessage (jsonKeyOf jsonMap key) (typeLabel T)
                                              (message cerr))), h').
Proof.
  revert i jsonObj h. induction pre as [|[key0 T0] pre IH];
    intros i jsonObj h Hco Hpre Hfail.
  - rewrite app_nil_l. simpl in Hfail. rewrite Nat.add_0_r in Hfail.
    pose proof (decodeFields_step value jsonMap key T post i jsonObj h Hco) as Hstep.
    destruct (fieldInput value jsonMap key i) as [e|assign]; simpl in Hfail.
    + subst e. eauto.
    + destruct Hfail as [Hinst Hctor].
      rewrite (instanceOrNew_throws _ _ _ _ Hinst Hctor) in Hstep. eauto.
  - rewrite <- app_comm_cons.
    pose proof (decodeFields_step value jsonMap key0 T0 (pre ++ (key, T) :: post)
                  i jsonObj h Hco) as Hstep.
    destruct (Hpre 0 key0 T0 eq_refl) as (assign & Hin & Hb).
    rewrite Nat.add_0_r in Hin. rewrite Hin in Hstep.
    destruct (instanceOrNew_buildable T0 assign h Hb) as (c & h1 & Hc).
    rewrite Hc in Hstep. destruct Hstep as (jo & Hco' & ->).
    destruct (IH (S i) jo h1 Hco') as (h' & Hrest).
    { intros j key' T' Hj. rewrite Nat.add_succ_comm. by apply (Hpre (S j)). }
    { simpl in Hfail. by rewrite Nat.add_succ_comm. }
    unfold bind. rewrite Hrest. eauto.
Qed.

Lemma sameOutcome_bind {A B} (f : A -> B) (r1 r2 : M A) h1 h2 :
  sameOutcome (r1 h1) (r2 h2) ->
  sameOutcome (bind r1 (fun a => ret (f a)) h1) (bind r2 (fun a => ret (f a)) h2).
Proof.
  unfold bind, ret, sameOutcome.
  destruct (r1 h1) as [[?|?] ?], (r2 h2) as [[?|?] ?]; try done.
  by intros [-> ->].
Qed.

(** The loop looks at the input only through the values assigned to the
    fields: two inputs that assign the same values end alike, and with
    the same message when the JSON keys are the same too. *)
Lemma decodeFields_agree value1 value2 jsonMap1 jsonMap2 fields i jsonObj1 jsonObj2 h :
  coherent value1 jsonObj1 -> coherent value2 jsonObj2 ->
  (forall j key T, fields !! j = Some (key, T) ->
     fieldInput value1 jsonMap1 key (i + j) = fieldInput value2 jsonMap2 key (i + j)) ->
  sameOutcome (decodeFields value1 jsonMap1 fields i jsonObj1 h)
              (decodeFields value2 jsonMap2 fields i jsonObj2 h) /\
  ((forall key T, elem_of (key, T) fields ->
      jsonKeyOf jsonMap1 key = jsonKeyOf jsonMap2 key) ->
   decodeFields value1 jsonMap1 fields i jsonObj1 h
   = decodeFields value2 jsonMap2 fields i jsonObj2 h).
Proof.
  revert i jsonObj1 jsonObj2 h. induction fields as [|[key T] rest IH];
    intros i jsonObj1 jsonObj2 h Hc1 Hc2 Hin.
  - split; [by split | done].
  - pose proof (decodeFields_step value1 jsonMap1 key T rest i jsonObj1 h Hc1) as Hs1.
    pose proof (decodeFields_step value2 jsonMap2 key T rest i jsonObj2 h Hc2) as Hs2.
    pose proof (Hin 0 key T eq_refl) as H0. rewrite Nat.add_0_r in H0.
    rewrite <- H0 in Hs2.
    destruct (fieldInput value1 jsonMap1 key i) as [e|assign].
    { rewrite Hs1, Hs2. split; [done|].
      intros Hk. rewrite (Hk key T); [done | by left]. }
    destruct (instanceOrNew T assign h) as [[e|c] h1].
    { rewrite Hs1, Hs2. split; [done|].
      intros Hk. rewrite (Hk key T); [done | by left]. }
    destruct Hs1 as (jo1 & Hc1' & ->). destruct Hs2 as (jo2 & Hc2' & ->).
    destruct (IH (S i) jo1 jo2 h1 Hc1' Hc2') as [Hsame Heq].
    { intros j key' T' Hj. rewrite Nat.add_succ_comm. by apply (Hin (S j) key' T'). }
    split.
    + by apply (sameOutcome_bind (fun raw => (key, c) :: raw)).
    + intros Hk. unfold bind. rewrite Heq; [done|].
      intros key' T' Hel. apply (Hk key' T'). by right.
Qed.

(** When no assigned value is an instance of its field's class, the loop
    calls one constructor per field, in the order of the fields. *)
Lemma decodeFields_fresh value jsonMap fields i jsonObj h raw h' :
  coherent value jsonObj ->
  (forall j key T assign, fields !! j = Some (key, T) ->
     fieldInput value jsonMap key (i + j) = inr assign ->
     instanceOf T assign = None) ->
  decodeFields value jsonMap fields i jsonObj h = (inr raw, h') ->
  h' = h + length fields /\
  forall j key c, raw !! j = Some (key, c) -> oid c = h + j.
Proof.
  revert i jsonObj h raw. induction fields as [|[key T] rest IH];
    intros i jsonObj h raw Hco Hnone Hrun.
  - injection Hrun as <- <-. split; [simpl; lia | done].
  - pose proof (decodeFields_step value jsonMap key T rest i jsonObj h Hco) as Hstep.
    destruct (fieldInput value jsonMap key i) as [e|assign] eqn:Hin.
    { rewrite Hstep in Hrun. discriminate. }
    destruct (instanceOrNew T assign h) as [[e|c] h1] eqn:Hnew.
    { rewrite Hstep in Hrun. discriminate. }
    destruct Hstep as (jo & Hco' & Hstep). rewrite Hstep in Hrun.
    apply bind_inr in Hrun as (raw' & h2 & Hrest & Hret).
    unfold ret in Hret. simplify_eq.
    apply instanceOrNew_heap in Hnew.
    rewrite (Hnone 0 key T assign eq_refl) in Hnew
      by (by rewrite Nat.add_0_r).
    destruct Hnew as [-> Hoid].
    assert (forall j key' T' assign', rest !! j = Some (key', T') ->
              fieldInput value jsonMap key' (S i + j) = inr assign' ->
              instanceOf T' assign' = None) as Hnone'.
    { intros j key' T' assign' Hj Ha. apply (Hnone (S j) key' T'); [done|].
      by rewrite <- Nat.add_succ_comm. }
    destruct (IH (S i) _ (S h) raw' Hco' Hnone' Hrest) as [Hh Hall].
    split; [simpl; lia|].
    intros [|j] key' c' Hj; simpl in Hj.
    + injection Hj as <- <-. rewrite Nat.add_0_r. by apply Hoid.
    + rewrite (Hall j key' c' Hj). lia.
Qed.

(** When every assigned value is an instance of its field's class, the
    loop returns these instances and calls no constructor. *)
Lemma decodeFields_reuse value jsonMap fields i jsonObj h :
  coherent value jsonObj ->
  (forall j key T, fields !! j = Some (key, T) ->
     exists assign, fieldInput value jsonMap key (i + j) = inr assign /\
                    is_Some (instanceOf T assign)) ->
  exists raw,
    decodeFields value jsonMap fields i jsonObj h = (inr raw, h) /\
    map fst raw = map fst fields /\
    forall j key T, fields !! j = Some (key, T) ->
      exists assign c,
        fieldInput value jsonMap key (i + j) = inr assign /\
        raw !! j = Some (key, c) /\ instanceOf T assign = Some c.
Proof.
  revert i jsonObj h. induction fields as [|[key T] rest IH];
    intros i jsonObj h Hco Hinst.
  - exists []. split; [done|]. split; [done|]. intros j ? ? Hj. done.
  - pose proof (decodeFields_step value jsonMap key T rest i jsonObj h Hco) as Hstep.
    destruct (Hinst 0 key T eq_refl) as (assign & Hin & [c Hc]).
    rewrite Nat.add_0_r in Hin. rewrite Hin in Hstep.
    assert (instanceOrNew T assign h = (inr c, h)) as Hnew.
    { unfold instanceOrNew. by rewrite Hc. }
    rewrite Hnew in Hstep. destruct Hstep as (jo & Hco' & ->).
    destruct (IH (S i) jo h Hco') as (raw & Hrest & Hkeys & Hall).
    { intros j key' T' Hj. rewrite Nat.add_succ_comm. by apply (Hinst (S j)). }
    exists ((key, c) :: raw). unfold bind. rewrite Hrest. split; [done|].
    split; [simpl; by f_equal|].
    intros [|j] key' T' Hj; simpl in Hj.
    + injection Hj as <- <-. exists assign, c. by rewrite Nat.add_0_r.
    + destruct (Hall j key' T' Hj) as (a' & c' & Ha' & Hc' & Hi'). exists a', c'.
      split_and!; try done. by rewrite <- Nat.add_succ_comm.
Qed.

(** The loop stops at the first field for which the [try] throws: the
    fields after it are not constructed, and one more instance is
    constructed to name the type in the message. The failing field has
    cost a constructor call when it is its constructor that throws, and
    none when it is the search for its value. *)
Lemma decodeFields_throws_heap value jsonMap pre key T post i jsonObj h cerr :
  coherent value jsonObj ->
  (forall j key' T', pre !! j = Some (key', T') ->
     exists assign, fieldInput value jsonMap key' (i + j) = inr assign /\
                    instanceOf T' assign = None /\
                    exists im, construct T' assign = inr im) ->
  fieldFails T (fieldInput value jsonMap key (i + length pre)) cerr ->
  decodeFields value jsonMap (pre ++ (key, T) :: post) i jsonObj h
  = (inl (mkError (failedOnMessage (jsonKeyOf jsonMap key) (typeLabel T)
                                   (message cerr))),
     h + length pre
     + match fieldInput value jsonMap key (i + length pre) with
       | inl _ => 1
       | inr _ => 2
       end).
Proof.
  revert i jsonObj h. induction pre as [|[key0 T0] pre IH];
    intros i jsonObj h Hco Hpre Hfail.
  - rewrite app_nil_l. simpl length in Hfail |- *.
    replace (i + 0) with i in * by lia. replace (h + 0) with h by lia.
    pose proof (decodeFields_step value jsonMap key T post i jsonObj h Hco) as Hstep.
    destruct (fieldInput value jsonMap key i) as [e|assign]; simpl in Hfail.
    + subst e. rewrite Hstep. simpl. f_equal. lia.
    + destruct Hfail as [Hinst Hctor].
      rewrite (instanceOrNew_throws _ _ _ _ Hinst Hctor) in Hstep.
      rewrite Hstep. simpl. f_equal. lia.
  - rewrite <- app_comm_cons.
    pose proof (decodeFields_step value jsonMap key0 T0 (pre ++ (key, T) :: post)
                  i jsonObj h Hco) as Hstep.
    destruct (Hpre 0 key0 T0 eq_refl) as (assign & Hin & Hn0 & im & Him).
    rewrite Nat.add_0_r in Hin. rewrite Hin in Hstep.
    assert (instanceOrNew T0 assign h = (inr (mkCodec h im), S h)) as Hnew.
    { unfold instanceOrNew, new_. by rewrite Hn0, Him. }
    rewrite Hnew in Hstep. destruct Hstep as (jo & Hco' & ->).
    unfold bind. rewrite (IH (S i) jo (S h) Hco').
    + replace (i + length ((key0, T0) :: pre)) with (S i + length pre)
        by (simpl; lia).
      f_equal. simpl. lia.
    + intros j key' T' Hj. rewrite Nat.add_succ_comm. by apply (Hpre (S j)).
    + simpl in Hfail. by rewrite Nat.add_succ_comm.
Qed.

End DecodeFacts.

(** ** The constructor *)

Section ConstructorFacts.
Variable registry : Registry.
Variable stringCamelCase : string -> Error + string.
Variable stringify : JsValue -> string.
Variable isHex : string -> bool.
Variable hexToU8a : string -> list byte.
Variable inherited : option Codec -> string -> option JsValue.

Local Abbreviation decodeFields := (decodeFields stringCamelCase inherited).
Local Abbreviation decodeStructFromObject :=
  (decodeStructFromObject stringCamelCase stringify inherited).
Local Abbreviation decodeValue :=
  (decodeValue stringCamelCase stringify isHex hexToU8a inherited).
Local Abbreviation Struct_new :=
  (Struct_new registry stringCamelCase stringify isHex hexToU8a inherited).
Local Abbreviation fieldInput := (fieldInput stringCamelCase inherited).
Local Abbreviation mapToTypeMap := (mapToTypeMap registry).

Lemma decodeU8aFrom_keys u8a fields offset h result total h' :
  decodeU8aFrom u8a fields offset h = (inr (result, total), h') ->
  map fst result = map fst fields.
Proof.
  revert offset h result total. induction fields as [|[key T] rest IH];
    intros offset h result total; simpl.
  - by intros [= <- _ _].
  - intros (c & h1 & _ & Hrest)%bind_inr.
    apply bind_inr in Hrest as ([res tot] & h2 & Hrest & Hret).
    unfold ret in Hret. simplify_eq/=. f_equal. by eapply IH.
Qed.

(** For an array, [Map] or object of fitting arity,
    [decodeStructFromObject] is its loop. *)
Lemma decodeStructFromObject_structured typeMap value jsonMap h :
  isStructured value = true -> arityFits typeMap value ->
  decodeStructFromObject typeMap value jsonMap h =
  bind (decodeFields value jsonMap typeMap 0 None) (fun raw => ret (raw, 0)) h.
Proof.
  intros Hs Ha. unfold decodeStructFromObject.
  destruct value; try discriminate; simpl in Ha; try done.
  simpl. rewrite length_map, Ha, Nat.eqb_refl. done.
Qed.

(** A return of [decodeStructFromObject]. *)
Lemma decodeStructFromObject_ok typeMap value jsonMap h raw len h' :
  decodeStructFromObject typeMap value jsonMap h = (inr (raw, len), h') ->
  len = 0 /\ map fst raw = map fst typeMap /\
  forall j key T, typeMap !! j = Some (key, T) ->
    exists assign c,
      fieldInput value jsonMap key j = inr assign /\
      raw !! j = Some (key, c) /\ builtFrom T assign c.
Proof.
  unfold decodeStructFromObject.
  intros (_ & h1 & _ & H)%bind_inr.
  apply bind_inr in H as (_ & h2 & _ & H).
  apply bind_inr in H as (raw' & h3 & Hloop & Hret).
  unfold ret in Hret. simplify_eq.
  eapply decodeFields_ok in Hloop as [Hk Hall]; [|done].
  split_and!; done.
Qed.

Lemma decodeValue_keys typeMap value jsonMap h decoded len h' :
  decodeValue typeMap value jsonMap h = (inr (decoded, len), h') ->
  structKeysAre (map fst typeMap) value ->
  map fst decoded = map fst typeMap.
Proof.
  intros H Hs.
  destruct value; simpl in H, Hs;
    try (by apply decodeStructFromObject_ok in H as (_ & Hk & _)).
  - destruct (isHex s).
    + by eapply decodeU8aFrom_keys.
    + by apply decodeStructFromObject_ok in H as (_ & Hk & _).
  - by eapply decodeU8aFrom_keys.
  - unfold ret in H. by simplify_eq.
Qed.

Lemma Struct_new_inv Types value jsonMap h s h' :
  Struct_new Types value jsonMap h = (inr s, h') ->
  exists typeMap decoded len,
    mapToTypeMap Types = inr typeMap /\
    decodeValue typeMap value jsonMap h = (inr (decoded, len), h') /\
    s = mkStruct (Map_new decoded) len jsonMap typeMap.
Proof.
  unfold Struct_new. intros (typeMap & h1 & Hm & H)%bind_inr.
  unfold lift in Hm. simplify_eq.
  apply bind_inr in H as ([decoded len] & h2 & Hd & Hret).
  unfold ret in Hret. simplify_eq. eauto 6.
Qed.

Lemma Struct_new_ok Types typeMap value jsonMap h decoded len h' :
  mapToTypeMap Types = inr typeMap ->
  decodeValue typeMap value jsonMap h = (inr (decoded, len), h') ->
  Struct_new Types value jsonMap h
  = (inr (mkStruct (Map_new decoded) len jsonMap typeMap), h').
Proof.
  intros Hm Hd. unfold Struct_new, bind, lift. by rewrite Hm, Hd.
Qed.

Lemma Struct_new_throws Types typeMap value jsonMap h e h' :
  mapToTypeMap Types = inr typeMap ->
  decodeValue typeMap value jsonMap h = (inl e, h') ->
  Struct_new Types value jsonMap h = (inl e, h').
Proof.
  intros Hm Hd. unfold Struct_new, bind, lift. by rewrite Hm, Hd.
Qed.

(** The entries of a constructed instance have distinct keys. *)
Lemma Struct_new_NoDup Types value jsonMap h s h' :
  Struct_new Types value jsonMap h = (inr s, h') ->
  NoDup (map fst (entries s)).
Proof.
  intros (typeMap & decoded & len & _ & _ & ->)%Struct_new_inv.
  apply Map_new_NoDup.
Qed.

(** Unless it is copied from a [Struct] that lists other keys, a
    constructed instance holds the declared keys in declared order. *)
Lemma Struct_new_keys Types value jsonMap h s h' :
  Struct_new Types value jsonMap h = (inr s, h') ->
  structKeysAre (defKeys s) value ->
  map fst (entries s) = defKeys s.
Proof.
  intros (typeMap & decoded & len & Hm & Hd & ->)%Struct_new_inv Hs.
  unfold defKeys in *. simpl in *.
  pose proof (decodeValue_keys _ _ _ _ _ _ _ Hd Hs) as Hk.
  rewrite Map_new_id; [done|]. rewrite Hk. by eapply mapToTypeMap_NoDup.
Qed.

Lemma Struct_new_defKeys Types value jsonMap h s h' :
  Struct_new Types value jsonMap h = (inr s, h') ->
  NoDup (map fst Types) ->
  defKeys s = map fst Types.
Proof.
  intros (typeMap & decoded & len & Hm & Hd & ->)%Struct_new_inv Hnd.
  unfold defKeys. simpl. by eapply mapToTypeMap_keys.
Qed.

End ConstructorFacts.

(** ** Methods *)

Lemma encodeEntries_spec inheritedFlag es isBare encoded :
  encodeEntries inheritedFlag es isBare encoded =
  encoded ++ map (fun kv => c_toU8a (impl kv.2) (bareFor inheritedFlag isBare kv.1)) es.
Proof.
  revert encoded. induction es as [|[k v] es IH]; intros encoded; simpl.
  - by rewrite app_nil_r.
  - by rewrite IH, <- app_assoc.
Qed.

(** Reading the fields back by key, in the order of the keys, gives the
    entries. *)
Lemma fields_by_key {V B} (m : list (string * V)) (f : string -> V -> B) (d : string -> B) :
  NoDup (map fst m) ->
  map (fun k => match Map_get m k with Some v => f k v | None => d k end) (map fst m)
  = map (fun kv => f kv.1 kv.2) m.
Proof.
  induction m as [|[k v] m IH]; simpl; [done|].
  intros [Hk Hnd]%NoDup_cons. rewrite String.eqb_refl. f_equal.
  rewrite <- (IH Hnd). apply map_ext_in. intros k' Hin%list_elem_of_In.
  destruct (String.eqb_spec k k') as [->|Hne]; done.
Qed.

Lemma fold_left_add_sum {A} (f : A -> nat) (l : list A) (acc : nat) :
  fold_left (fun total v => total + f v) l acc = acc + sum_list (map f l).
Proof.
  revert acc. induction l as [|n l IH]; intros acc; simpl; [lia|].
  rewrite IH. lia.
Qed.

Lemma allEmpty_Forall vs :
  allEmpty vs = true <-> Forall (fun v => c_isEmpty (impl v) = true) vs.
Proof.
  induction vs as [|v vs IH]; simpl.
  - split; [constructor | done].
  - destruct (c_isEmpty (impl v)) eqn:Hv; simpl.
    + rewrite IH. split; [by constructor | by intros [_ ?]%Forall_cons].
    + split; [done | intros [? _]%Forall_cons; congruence].
Qed.

(** ** What each shape of input assigns to a field *)

Section InputFacts.
Variable stringCamelCase : string -> Error + string.
Variable stringify : JsValue -> string.
Variable isHex : string -> bool.
Variable hexToU8a : string -> list byte.
Variable inherited : option Codec -> string -> option JsValue.

Local Abbreviation decodeStructFromObject :=
  (decodeStructFromObject stringCamelCase stringify inherited).
Local Abbreviation decodeValue :=
  (decodeValue stringCamelCase stringify isHex hexToU8a inherited).
Local Abbreviation fieldInput := (fieldInput stringCamelCase inherited).
Local Abbreviation camelCased := (camelCased stringCamelCase).
Local Abbreviation camelCasedFrom := (camelCasedFrom stringCamelCase).
Local Abbreviation camelKeys := (camelKeys stringCamelCase).
Local Abbreviation camelLookup := (camelLookup stringCamelCase inherited).
Local Abbreviation lookupByShape := (lookupByShape stringCamelCase inherited).
Local Abbreviation propGet := (propGet inherited).
Local Abbreviation objGet := (objGet inherited).

Lemma jsonKeyOf_nonempty jsonMap key : key <> "" -> jsonKeyOf jsonMap key <> "".
Proof.
  unfold jsonKeyOf. intros Hk. destruct (jsonMap !! key) as [alias|]; [|done].
  destruct (String.eqb_spec alias ""); done.
Qed.

Lemma jsonKeyOf_no_alias jsonMap key :
  jsonMap !! key = None -> jsonKeyOf jsonMap key = key.
Proof. unfold jsonKeyOf. by intros ->. Qed.

Lemma andKey_nonempty jsonKey x : jsonKey <> "" -> andKey jsonKey x = x.
Proof. unfold andKey. by intros ->%String.eqb_neq. Qed.

(** Writing entries one after the other: the last one under a key is
    the one that is read. *)
Lemma fold_insert_lookup (es : list (string * JsValue)) (o : gmap string JsValue) k :
  fold_left (fun o e => <[e.1 := e.2]> o) es o !! k
  = match find (fun e => String.eqb e.1 k) (rev es) with
    | Some e => Some e.2
    | None => o !! k
    end.
Proof.
  revert o. induction es as [|e es IH] using rev_ind; intros o; [done|].
  rewrite fold_left_app, rev_unit. simpl. rewrite lookup_insert.
  destruct (String.eqb_spec e.1 k) as [->|Hne].
  - by rewrite decide_True.
  - rewrite decide_False by done. apply IH.
Qed.

(** The copy is made of the entries under their camel-cased keys, and is
    not made when one of the keys cannot be camel-cased. *)
Lemma camelCasedFrom_keys entries jsonObj :
  camelCasedFrom entries jsonObj
  = match camelKeys entries with
    | inl error => inl error
    | inr es => inr (fold_left (fun o e => <[e.1 := e.2]> o) es jsonObj)
    end.
Proof.
  revert jsonObj. induction entries as [|[k v] entries IH]; intros jsonObj; [done|].
  simpl. destruct (stringCamelCase k) as [e|k']; [done|].
  rewrite IH. by destruct (camelKeys entries).
Qed.

(** Reading the camel-cased copy finds the last entry whose camel-cased
    key is the key read, or what the copy inherits. *)
Lemma camelCased_lookup entries k :
  match camelCased entries with
  | inl error => inl error
  | inr jsonObj => inr (objGet jsonObj k)
  end = camelLookup entries k.
Proof.
  unfold camelCased, camelLookup, objGet. rewrite camelCasedFrom_keys.
  destruct (camelKeys entries) as [e|es]; [done|].
  rewrite fold_insert_lookup, lookup_empty.
  by destruct (find _ (rev es)).
Qed.

Lemma fieldInput_array xs jsonMap key i x :
  xs !! i = Some x -> fieldInput (VArray xs) jsonMap key i = inr x.
Proof.
  intros Hx. unfold fieldInput, assignField. simpl.
  apply nth_lookup_Some with (d := VUndefined) in Hx. by rewrite Hx.
Qed.

Lemma fieldInput_keyed value jsonMap key i :
  isKeyed value = true -> key <> "" ->
  fieldInput value jsonMap key i = lookupByShape value (jsonKeyOf jsonMap key).
Proof.
  intros Hv Hk. pose proof (jsonKeyOf_nonempty jsonMap key Hk) as Hjk.
  assert (forall v, isKeyed v = true -> isMap v = false ->
            fieldInput v jsonMap key i
            = lookupObject stringCamelCase inherited v (jsonKeyOf jsonMap key)) as Hobj.
  { intros v Hkv Hm. unfold fieldInput, assignField, lookupObject.
    rewrite Hm. replace (isArray v) with false by (by destruct v).
    rewrite andKey_nonempty by done.
    destruct (isUndefined (propGet v (jsonKeyOf jsonMap key))); [|done].
    rewrite <- camelCased_lookup.
    destruct (camelCased (ownProps v)); [done|].
    by rewrite andKey_nonempty. }
  destruct value; try discriminate; try (by apply Hobj).
  unfold fieldInput, assignField, lookupByShape, lookupMap. simpl.
  by rewrite andKey_nonempty.
Qed.


Lemma decodeValue_structured typeMap value jsonMap :
  isStructured value = true ->
  decodeValue typeMap value jsonMap = decodeStructFromObject typeMap value jsonMap.
Proof. by destruct value. Qed.


(** Line 21: an array of another length than the number of fields. *)
Lemma decodeStructFromObject_arity typeMap xs jsonMap h :
  length xs <> length typeMap ->
  decodeStructFromObject typeMap (VArray xs) jsonMap h
  = (inl (mkError (unableToMap stringify (VArray xs) (map fst typeMap))), h).
Proof.
  intros Hlen. unfold decodeStructFromObject. simpl.
  rewrite length_map. apply Nat.eqb_neq in Hlen. by rewrite Hlen.
Qed.

End InputFacts.

(** * The claims *)

Section Claims.
Variable registry : Registry.
Variable stringCamelCase : string -> Error + string.
Variable stringify : JsValue -> string.
Variable isHex : string -> bool.
Variable hexToU8a : string -> list byte.
Variable inherited : option Codec -> string -> option JsValue.
Variable inheritedFlag : BareOpts -> string -> BareOpts.

Local Abbreviation decodeStructFromObject :=
  (decodeStructFromObject stringCamelCase stringify inherited).
Local Abbreviation decodeValue :=
  (decodeValue stringCamelCase stringify isHex hexToU8a inherited).
Local Abbreviation Struct_new :=
  (Struct_new registry stringCamelCase stringify isHex hexToU8a inherited).
Local Abbreviation fieldInput := (fieldInput stringCamelCase inherited).
Local Abbreviation mapToTypeMap := (mapToTypeMap registry).
Local Abbreviation lookupByShape := (lookupByShape stringCamelCase inherited).
Local Abbreviation toU8a := (toU8a inheritedFlag).
Local Abbreviation fieldU8a := (fieldU8a inheritedFlag).

(** Entries of a struct built by [decodeStructFromObject]: the fields,
    in order, each built from the value assigned to it. *)
Lemma structured_fields Types typeMap value jsonMap h s h' :
  mapToTypeMap Types = inr typeMap ->
  decodeValue typeMap value jsonMap
  = decodeStructFromObject typeMap (orEmptyObject value) jsonMap ->
  Struct_new Types value jsonMap h = (inr s, h') ->
  TypesOf s = typeMap /\
  forall i key T, typeMap !! i = Some (key, T) ->
    exists assign c,
      fieldInput (orEmptyObject value) jsonMap key i = inr assign /\
      entries s !! i = Some (key, c) /\ get s key = Some c /\
      getAtIndex s i = Some c /\ builtFrom T assign c.
Proof.
  intros Hm Hpath Hnew.
  pose proof (Struct_new_NoDup _ _ _ _ _ _ _ _ _ _ _ _ Hnew) as Hnd.
  apply Struct_new_inv in Hnew as (typeMap' & decoded & len & Hm' & Hd & ->).
  rewrite Hm in Hm'. injection Hm' as <-. split; [done|].
  rewrite Hpath in Hd.
  apply decodeStructFromObject_ok in Hd as (_ & Hkeys & Hall).
  simpl in *. rewrite Map_new_id in *
    by (rewrite Hkeys; by eapply mapToTypeMap_NoDup).
  intros i key T Hi. destruct (Hall i key T Hi) as (assign & c & Ha & Hc & Hb).
  exists assign, c. split_and!; try done.
  - unfold get. simpl. by eapply Map_get_lookup.
  - unfold getAtIndex, toArray, values. simpl. by rewrite list_lookup_fmap, Hc.
Qed.

(** A struct is built by [decodeStructFromObject] when every field can be
    built from the value assigned to it. *)
Lemma structured_total Types typeMap value jsonMap h :
  mapToTypeMap Types = inr typeMap ->
  isStructured value = true -> arityFits typeMap value ->
  (forall i key T, typeMap !! i = Some (key, T) ->
     assignable T (fieldInput value jsonMap key i)) ->
  exists s h', Struct_new Types value jsonMap h = (inr s, h').
Proof.
  intros Hm Hs Ha Hall.
  destruct (decodeFields_total stringCamelCase inherited value jsonMap typeMap 0 None h)
    as (raw & h' & Hloop); [done | exact Hall |].
  eexists _, h'. eapply Struct_new_ok; [exact Hm|].
  rewrite decodeValue_structured, decodeStructFromObject_structured by done.
  unfold bind. rewrite Hloop. reflexivity.
Qed.

(** C1, as amended. For every instance that the constructor builds from
    an input that is not a [Struct] (bytes, a hex string, an array, a
    [Map], an object, nothing), or from a [Struct] that lists the
    declared keys in declared order, the entries are in declared order
    and [toU8a] is the concatenation of each field's own [toU8a] output
    in that order, whatever the key order of the input. *)
Theorem toU8a_declared_order Types value jsonMap h s h' :
  NoDup (map fst Types) ->
  Struct_new Types value jsonMap h = (inr s, h') ->
  defKeys s = map fst Types /\
  (structKeysAre (map fst Types) value ->
   map fst (entries s) = defKeys s /\
   forall isBare, toU8a s isBare = concat (map (fieldU8a s isBare) (defKeys s))).
Proof.
  intros HndT Hnew.
  pose proof (Struct_new_defKeys _ _ _ _ _ _ _ _ _ _ _ _ Hnew HndT) as Hdef.
  split; [done|]. intros Hshape. rewrite <- Hdef in Hshape.
  pose proof (Struct_new_keys _ _ _ _ _ _ _ _ _ _ _ _ Hnew Hshape) as Hkeys.
  pose proof (Struct_new_NoDup _ _ _ _ _ _ _ _ _ _ _ _ Hnew) as Hnd.
  split; [done|]. intros isBare.
  unfold toU8a. rewrite encodeEntries_spec. simpl. f_equal.
  rewrite <- Hkeys. unfold fieldU8a, get.
  symmetry.
  apply (fields_by_key (entries s)
           (fun k v => c_toU8a (impl v) (bareFor inheritedFlag isBare k)) (fun _ => [])).
  exact Hnd.
Qed.

(** C2. The [encodedLength] of a struct is the sum of the
    [encodedLength] of its fields, and, when each field's
    [encodedLength] is the length of its own [toU8a()] as the codec
    contract asks, it is the length of the struct's [toU8a()]. *)
Theorem encodedLength_sum (s : Struct) :
  encodedLength s = sum_list (map (fun v => c_encodedLength (impl v)) (toArray s)) /\
  ((forall v, elem_of v (toArray s) ->
      c_encodedLength (impl v) = length (c_toU8a (impl v) BareUndefined)) ->
   encodedLength s = length (toU8a s BareUndefined)).
Proof.
  assert (encodedLength s
          = sum_list (map (fun v => c_encodedLength (impl v)) (toArray s))) as Hsum.
  { unfold encodedLength, toArray.
    by rewrite (fold_left_add_sum (fun v => c_encodedLength (impl v))). }
  split; [exact Hsum|].
  intros Hlaw. rewrite Hsum. unfold toU8a. rewrite encodeEntries_spec. simpl.
  unfold toArray, values in *. revert Hlaw.
  generalize (entries s). intros es. induction es as [|[k v] es IH]; simpl; [done|].
  intros Hlaw. rewrite length_app, <- IH.
  - f_equal. apply Hlaw. by left.
  - intros v' Hv'. apply Hlaw. by right.
Qed.

(** C3. For a struct type of [n] fields, the constructor throws on an
    array of another length than [n], before any child is constructed;
    on an array of length [n] it assigns by position: the codec of the
    [i]-th declared field is built from the [i]-th item, and the
    construction returns when every item builds its field. *)
Theorem array_input_arity Types typeMap xs jsonMap h :
  mapToTypeMap Types = inr typeMap ->
  (length xs <> length typeMap ->
     Struct_new Types (VArray xs) jsonMap h
     = (inl (mkError (unableToMap stringify (VArray xs) (map fst typeMap))), h)) /\
  (length xs = length typeMap ->
     (forall s h', Struct_new Types (VArray xs) jsonMap h = (inr s, h') ->
        forall i key T, typeMap !! i = Some (key, T) ->
          exists x c, xs !! i = Some x /\ entries s !! i = Some (key, c) /\
                      get s key = Some c /\ builtFrom T x c) /\
     ((forall i key T x, typeMap !! i = Some (key, T) -> xs !! i = Some x ->
         buildable T x) ->
      exists s h', Struct_new Types (VArray xs) jsonMap h = (inr s, h'))).
Proof.
  intros Hm. split; [|intros Hlen; split; revert Hlen].
  - intros Hlen. eapply Struct_new_throws; [exact Hm|].
    by apply decodeStructFromObject_arity.
  - intros Hlen s h' Hnew i key T Hi.
    destruct (structured_fields Types typeMap (VArray xs) jsonMap h s h' Hm eq_refl Hnew)
      as [_ Hall].
    destruct (Hall i key T Hi) as (assign & c & Hin & Hc & Hg & _ & Hb).
    destruct (lookup_lt_is_Some_2 xs i) as [x Hx].
    { rewrite Hlen. by eapply lookup_lt_Some. }
    exists x, c. split_and!; try done.
    simpl in Hin. rewrite (fieldInput_array _ _ _ _ _ _ _ Hx) in Hin.
    by injection Hin as ->.
  - intros Hlen Hall. eapply structured_total; try done.
    intros i key T Hi.
    destruct (lookup_lt_is_Some_2 xs i) as [x Hx].
    { rewrite Hlen. by eapply lookup_lt_Some. }
    exists x. split; [by apply fieldInput_array | by eapply Hall].
Qed.

(** C4, as amended. When, in the construction from an array, a [Map]
    or an object, the constructor of a child field throws (the fields
    before it having been assigned and built), the constructor of the
    struct throws an error whose message is the child's message behind
    the field's JSON key and the child's type (the raw type of a default
    instance, else the class name). The JSON key is the alias that
    [jsonMap] declares for the field when there is one that is not
    empty, and only otherwise the field's name. *)
Theorem child_error_wrapped Types pre key T post value jsonMap h assign cerr :
  mapToTypeMap Types = inr (pre ++ (key, T) :: post) ->
  isStructured value = true ->
  arityFits (pre ++ (key, T) :: post) value ->
  (forall j key' T', pre !! j = Some (key', T') ->
     assignable T' (fieldInput value jsonMap key' j)) ->
  fieldInput value jsonMap key (length pre) = inr assign ->
  instanceOf T assign = None ->
  construct T assign = inl cerr ->
  (exists h', Struct_new Types value jsonMap h
              = (inl (mkError ("Struct: failed on " +:+ jsonKeyOf jsonMap key +:+ ": "
                               +:+ typeLabel T +:+ ":: " +:+ message cerr)), h')) /\
  (forall alias, jsonMap !! key = Some alias -> alias <> "" ->
     jsonKeyOf jsonMap key = alias) /\
  (jsonMap !! key = None \/ jsonMap !! key = Some "" -> jsonKeyOf jsonMap key = key).
Proof.
  intros Hm Hs Ha Hpre Hin Hinst Hctor. split; [|split].
  - destruct (decodeFields_throws stringCamelCase inherited value jsonMap pre key T post
                0 None h cerr) as [h' Hloop]; try done.
    { simpl. by rewrite Hin. }
    exists h'. eapply Struct_new_throws; [exact Hm|].
    rewrite decodeValue_structured, decodeStructFromObject_structured by done.
    unfold bind. by rewrite Hloop.
  - intros alias Hal Hne. unfold jsonKeyOf. rewrite Hal.
    by apply String.eqb_neq in Hne as ->.
  - unfold jsonKeyOf. by intros [-> | ->].
Qed.

(** C5. Constructing a struct of the same shape from an instance [s]
    that was constructed before calls no child constructor (the count of
    constructor calls is left as it was) and yields a struct whose
    entries are the entries of [s]: the same keys in the same order,
    holding the same child instances. *)
Theorem construct_from_struct Types value jsonMap h s h1 self jsonMap' h2 :
  Struct_new Types value jsonMap h = (inr s, h1) ->
  exists s',
    Struct_new Types (VStruct self (entries s)) jsonMap' h2 = (inr s', h2) /\
    entries s' = entries s /\
    toArray s' = toArray s /\
    map (fun kv => oid kv.2) (entries s') = map (fun kv => oid kv.2) (entries s) /\
    defKeys s' = defKeys s /\
    initialU8aLength s' = 0 /\
    forall isBare, toU8a s' isBare = toU8a s isBare.
Proof.
  intros Hnew.
  pose proof (Struct_new_NoDup _ _ _ _ _ _ _ _ _ _ _ _ Hnew) as Hnd.
  apply Struct_new_inv in Hnew as (typeMap & decoded & len & Hm & Hd & ->).
  simpl in *.
  eexists. split.
  - apply (Struct_new_ok _ _ _ _ _ _ _ typeMap); [exact Hm | reflexivity].
  - simpl. rewrite (Map_new_id (Map_new decoded)) by exact Hnd. done.
Qed.

(** C6, as amended. For an object- or map-shaped input and field names
    that are not empty, the constructor builds each declared field from
    the value found by key lookup under the field's JSON key (the
    declared alias when there is one, else the field name): for an
    object, the value that the object has under that key (its own
    property, else a member it inherits), and when that is undefined the
    value under that key among the camel-cased keys of the input; for a
    [Map], the value under that key and nothing else. The construction
    returns when every field can be built from the value found, and it
    throws, at the first field for which the lookup throws, the error of
    the lookup behind that field's JSON key: the camel-casing of the
    keys of the input can throw. *)
Theorem keyed_input_lookup Types typeMap value jsonMap h :
  mapToTypeMap Types = inr typeMap ->
  isKeyed value = true ->
  Forall (fun kt => kt.1 <> "") typeMap ->
  (forall s h', Struct_new Types value jsonMap h = (inr s, h') ->
     forall i key T, typeMap !! i = Some (key, T) ->
       exists found c,
         lookupByShape value (jsonKeyOf jsonMap key) = inr found /\
         entries s !! i = Some (key, c) /\ get s key = Some c /\
         builtFrom T found c) /\
  ((forall key T, elem_of (key, T) typeMap ->
      assignable T (lookupByShape value (jsonKeyOf jsonMap key))) ->
   exists s h', Struct_new Types value jsonMap h = (inr s, h')) /\
  (forall pre key T post error,
     typeMap = pre ++ (key, T) :: post ->
     (forall key' T', elem_of (key', T') pre ->
        assignable T' (lookupByShape value (jsonKeyOf jsonMap key'))) ->
     lookupByShape value (jsonKeyOf jsonMap key) = inl error ->
     exists h', Struct_new Types value jsonMap h
                = (inl (mkError ("Struct: failed on " +:+ jsonKeyOf jsonMap key +:+ ": "
                                 +:+ typeLabel T +:+ ":: " +:+ message error)), h')).
Proof.
  intros Hm Hk Hne.
  assert (forall i key T, typeMap !! i = Some (key, T) -> key <> "") as Hkey.
  { intros i key T Hi. rewrite Forall_lookup in Hne. apply (Hne i _ Hi). }
  assert (orEmptyObject value = value) as Hor by (by destruct value).
  assert (isStructured value = true) as Hs by (by destruct value).
  assert (arityFits typeMap value) as Har by (by destruct value).
  split; [|split].
  - intros s h' Hnew i key T Hi.
    assert (decodeValue typeMap value jsonMap
            = decodeStructFromObject typeMap (orEmptyObject value) jsonMap) as Hpath
      by (by destruct value).
    destruct (structured_fields Types typeMap value jsonMap h s h' Hm Hpath Hnew)
      as [_ Hall].
    destruct (Hall i key T Hi) as (found & c & Hin & Hc & Hg & _ & Hb).
    exists found, c. split_and!; try done.
    rewrite Hor, fieldInput_keyed in Hin; eauto.
  - intros Hall. eapply structured_total; try done.
    intros i key T Hi. rewrite fieldInput_keyed; eauto.
    apply Hall. by eapply list_elem_of_lookup_2.
  - intros pre key T post error -> Hpre Hlook.
    destruct (decodeFields_throws stringCamelCase inherited value jsonMap pre key T post
                0 None h error) as [h' Hloop]; try done.
    + intros j key' T' Hj. simpl. rewrite fieldInput_keyed; try done.
      * apply Hpre. by eapply list_elem_of_lookup_2.
      * apply (Hkey j key' T'). by apply lookup_app_l_Some.
    + simpl. rewrite fieldInput_keyed, Hlook; try done.
      apply (Hkey (length pre) key T). by apply list_lookup_middle.
    + exists h'. eapply Struct_new_throws; [exact Hm|].
      rewrite decodeValue_structured, decodeStructFromObject_structured by done.
      unfold bind. by rewrite Hloop.
Qed.


(** C8. [isEmpty] is true exactly when every field of the struct is
    empty. *)
Theorem isEmpty_iff (s : Struct) :
  isEmpty s = true <-> Forall (fun v => c_isEmpty (impl v) = true) (toArray s).
Proof. apply allEmpty_Forall. Qed.

(** C10, as amended. [defKeys] lists the declared keys in declaration
    order; for every instance that the constructor builds from an input
    that is not a [Struct], or from a [Struct] that lists the declared
    keys in declared order, [toArray] returns the field codecs in that
    same order, and [getAtIndex (i)] returns the codec stored under the
    [i]-th declared key. *)
Theorem iteration_order Types value jsonMap h s h' :
  NoDup (map fst Types) ->
  Struct_new Types value jsonMap h = (inr s, h') ->
  defKeys s = map fst Types /\
  toArray s = map snd (entries s) /\
  (structKeysAre (map fst Types) value ->
   map fst (entries s) = defKeys s /\
   length (toArray s) = length (defKeys s) /\
   forall i k, defKeys s !! i = Some k ->
     exists c, getAtIndex s i = Some c /\ get s k = Some c).
Proof.
  intros HndT Hnew.
  pose proof (Struct_new_defKeys _ _ _ _ _ _ _ _ _ _ _ _ Hnew HndT) as Hdef.
  split; [done|]. split; [done|]. intros Hshape.
  rewrite <- Hdef in Hshape.
  pose proof (Struct_new_keys _ _ _ _ _ _ _ _ _ _ _ _ Hnew Hshape) as Hkeys.
  pose proof (Struct_new_NoDup _ _ _ _ _ _ _ _ _ _ _ _ Hnew) as Hnd.
  split; [done|]. split.
  { unfold toArray, values. by rewrite <- Hkeys, !length_map. }
  intros i k Hi. rewrite <- Hkeys, list_lookup_fmap in Hi.
  destruct (entries s !! i) as [[k' c]|] eqn:Hent; simpl in Hi; [|done].
  injection Hi as ->. exists c. split.
  - unfold getAtIndex, toArray, values. by rewrite list_lookup_fmap, Hent.
  - unfold get. by eapply Map_get_lookup.
Qed.

End Claims.

(** ** Text *)

Lemma Text_encodedLength (t : Text.Text) :
  Text.encodedLength t
  = length (Text.compactToU8a
              (N.of_nat (length (Text.stringToU8a (Text.toString t)))))
    + length (Text.stringToU8a (Text.toString t)).
Proof.
  unfold Text.encodedLength, Text.toU8a, Text.compactAddLength.
  by rewrite length_app.
Qed.

(** C9. The encoded length of a text is the number of bytes of the compact
    length prefix plus the number of UTF-8 bytes of its string, not the
    number of its characters; the string of a text is the input string,
    unless that is in hex form, in which case it is the text of the bytes
    the input stands for. The text of the two characters U+4E2D U+6587
    has six UTF-8 bytes behind a prefix of one byte, so encoded length 7,
    and logical length 2; the text constructed from [0x12345678] holds
    the four bytes 12 34 56 78, so encoded length 5. *)
Theorem text_encodedLength_counts_bytes :
  (forall input : Text.Input,
     Text.encodedLength (Text.new_ input)
     = length (Text.compactToU8a
                 (N.of_nat (length (Text.stringToU8a
                                      (Text.toString (Text.new_ input))))))
       + length (Text.stringToU8a (Text.toString (Text.new_ input)))) /\
  (forall s : Text.ustring,
     Text.toString (Text.new_ (Text.InString s))
     = if Text.isHex s then Text.u8aToString (Text.hexToU8a s) else s) /\
  Text.isHex Fixtures.zhongwen = false /\
  Text.stringToU8a Fixtures.zhongwen = [xe4; xb8; xad; xe6; x96; x87]%byte /\
  Text.compactToU8a 6 = [x18]%byte /\
  Text.toU8a (Text.new_ (Text.InString Fixtures.zhongwen)) false
  = [x18; xe4; xb8; xad; xe6; x96; x87]%byte /\
  Text.encodedLength (Text.new_ (Text.InString Fixtures.zhongwen)) = 7 /\
  Text.length (Text.new_ (Text.InString Fixtures.zhongwen)) = 2 /\
  Text.isHex Fixtures.hexInput = true /\
  Text.toU8a (Text.new_ (Text.InString Fixtures.hexInput)) true
  = [x12; x34; x56; x78]%byte /\
  Text.encodedLength (Text.new_ (Text.InString Fixtures.hexInput)) = 5.
Proof.
  split; [intros input; apply Text_encodedLength|].
  split; [intros s; simpl; by destruct (Text.isHex s)|].
  split_and!; reflexivity.
Qed.

(** * Worked examples *)

Section Examples.
Import Fixtures.

Local Abbreviation new := Fixtures.Struct_new.

Lemma abStruct_built : new abTypes baObject empty 0 = (inr abStruct, 2).
Proof. vm_compute. reflexivity. Qed.

Lemma swapped_built :
  new abTypes (VStruct self (entries baStruct)) empty 3 = (inr swapped, 3).
Proof. vm_compute. reflexivity. Qed.

Lemma abTypes_resolve : mapToTypeMap registry abTypes = inr abTypeMap.
Proof. vm_compute. reflexivity. Qed.

Lemma fooTypes_resolve : mapToTypeMap registry fooTypes = inr fooTypeMap.
Proof. vm_compute. reflexivity. Qed.

Lemma fooFromMap_built : new fooTypes fooMap empty 0 = (inr fooFromMap, 1).
Proof. vm_compute. reflexivity. Qed.

Lemma abTypes_NoDup : NoDup (map fst abTypes).
Proof.
  simpl. repeat constructor; rewrite ?list_elem_of_In; simpl; intuition discriminate.
Qed.

Lemma nestedTypes_resolve : mapToTypeMap registry nestedTypes = inr [("inner", Inner)].
Proof. reflexivity. Qed.

End Examples.

(** Built from [{ b: 2, a: 1 }], the struct declared as [a] then [b]
    encodes [a] then [b]. *)
Lemma toU8a_declared_order_witness :
  NoDup (map fst Fixtures.abTypes) /\
  Fixtures.Struct_new Fixtures.abTypes Fixtures.baObject empty 0
  = (inr Fixtures.abStruct, 2) /\
  structKeysAre (map fst Fixtures.abTypes) Fixtures.baObject /\
  toU8a Fixtures.inheritedFlag Fixtures.abStruct BareUndefined
  = concat (map (fieldU8a Fixtures.inheritedFlag Fixtures.abStruct BareUndefined)
                (defKeys Fixtures.abStruct)) /\
  toU8a Fixtures.inheritedFlag Fixtures.abStruct BareUndefined = [x01; x02]%byte.
Proof.
  split; [exact abTypes_NoDup|]. split; [exact abStruct_built|]. split; [exact I|].
  split; [|reflexivity].
  exact (proj2 (proj2 (toU8a_declared_order _ _ _ _ _ _ Fixtures.inheritedFlag
                         _ _ _ _ _ _ abTypes_NoDup abStruct_built) I) BareUndefined).
Defined.

(** Built from a struct declared as [b] then [a], the struct declared as
    [a] then [b] keeps the entries of its source: it encodes [b] then [a],
    which is not the concatenation of its fields in declared order. *)
Lemma toU8a_declared_order_counterexample :
  Fixtures.Struct_new Fixtures.abTypes
    (VStruct Fixtures.self (entries Fixtures.baStruct)) empty 3
  = (inr Fixtures.swapped, 3) /\
  defKeys Fixtures.swapped = ["a"; "b"] /\
  map fst (entries Fixtures.swapped) = ["b"; "a"] /\
  toU8a Fixtures.inheritedFlag Fixtures.swapped BareUndefined = [x02; x01]%byte /\
  concat (map (fieldU8a Fixtures.inheritedFlag Fixtures.swapped BareUndefined)
              (defKeys Fixtures.swapped))
  = [x01; x02]%byte /\
  toU8a Fixtures.inheritedFlag Fixtures.swapped BareUndefined
  <> concat (map (fieldU8a Fixtures.inheritedFlag Fixtures.swapped BareUndefined)
                 (defKeys Fixtures.swapped)).
Proof.
  split; [exact swapped_built|]. split_and!; try (vm_compute; reflexivity).
  vm_compute. discriminate.
Qed.

(** Two fields of one byte each: two bytes. *)
Lemma encodedLength_sum_witness :
  (forall v, elem_of v (toArray Fixtures.abStruct) ->
     c_encodedLength (impl v) = length (c_toU8a (impl v) BareUndefined)) /\
  encodedLength Fixtures.abStruct
  = length (toU8a Fixtures.inheritedFlag Fixtures.abStruct BareUndefined).
Proof.
  assert (forall v, elem_of v (toArray Fixtures.abStruct) ->
            c_encodedLength (impl v) = length (c_toU8a (impl v) BareUndefined)) as Hlaw.
  { intros v Hv. apply list_elem_of_In in Hv. vm_compute in Hv.
    destruct Hv as [<-|[<-|[]]]; reflexivity. }
  split; [exact Hlaw|].
  exact (proj2 (encodedLength_sum Fixtures.inheritedFlag Fixtures.abStruct) Hlaw).
Defined.

(** An array of one item for two fields is refused; an array of two items
    builds the struct. *)
Lemma array_input_arity_witness :
  mapToTypeMap Fixtures.registry Fixtures.abTypes = inr Fixtures.abTypeMap /\
  Fixtures.Struct_new Fixtures.abTypes (VArray [VNumber 1]) empty 0
  = (inl (mkError "Struct: Unable to map [...] array to object with known keys a, b"), 0) /\
  exists s h',
    Fixtures.Struct_new Fixtures.abTypes (VArray [VNumber 1; VNumber 2]) empty 0
    = (inr s, h').
Proof.
  split; [exact abTypes_resolve|]. split.
  - apply (proj1 (array_input_arity Fixtures.registry Fixtures.stringCamelCase
                    Fixtures.stringify Fixtures.isHex Fixtures.hexToU8a
                    Fixtures.inherited
                    Fixtures.abTypes Fixtures.abTypeMap [VNumber 1] empty 0
                    abTypes_resolve)).
    simpl. lia.
  - apply (proj2 (array_input_arity Fixtures.registry Fixtures.stringCamelCase
                    Fixtures.stringify Fixtures.isHex Fixtures.hexToU8a
                    Fixtures.inherited
                    Fixtures.abTypes Fixtures.abTypeMap [VNumber 1; VNumber 2] empty 0
                    abTypes_resolve)); [reflexivity|].
    intros [|[|i]] key T x Hi Hx; simpl in Hi, Hx; try discriminate;
      injection Hi as <- <-; injection Hx as <-; right; eexists; reflexivity.
Defined.

(** The second item of the array is a string, which the child refuses: the
    error names the field [b] and the type [u8] before the child's
    message. One level up, the field [inner] of a struct of structs fails
    with that message behind its own name and type: the message reads as
    the path [inner], [b]. *)
Lemma child_error_wrapped_witness :
  (exists h',
     Fixtures.Struct_new Fixtures.abTypes (VArray [VNumber 1; VString "x"]) empty 0
     = (inl (mkError "Struct: failed on b: u8:: u8: cannot decode the input"), h')) /\
  (exists h',
     Fixtures.Struct_new Fixtures.nestedTypes Fixtures.nestedObject empty 0
     = (inl (mkError ("Struct: failed on inner: {b}:: "
                      +:+ "Struct: failed on b: u8:: u8: cannot decode the input")), h')).
Proof.
  split.
  - destruct (child_error_wrapped Fixtures.registry Fixtures.stringCamelCase
                Fixtures.stringify Fixtures.isHex Fixtures.hexToU8a Fixtures.inherited
                Fixtures.abTypes [("a", Fixtures.U8)] "b" Fixtures.U8 []
                (VArray [VNumber 1; VString "x"]) empty 0 (VString "x")
                (mkError "u8: cannot decode the input"))
      as (Hthrow & _).
    + exact abTypes_resolve.
    + reflexivity.
    + reflexivity.
    + intros [|j] key T Hj; simpl in Hj; [|discriminate].
      injection Hj as <- <-. exists (VNumber 1). split; [reflexivity|].
      right. eexists. reflexivity.
    + reflexivity.
    + reflexivity.
    + reflexivity.
    + exact Hthrow.
  - destruct (child_error_wrapped Fixtures.registry Fixtures.stringCamelCase
                Fixtures.stringify Fixtures.isHex Fixtures.hexToU8a Fixtures.inherited
                Fixtures.nestedTypes [] "inner" Fixtures.Inner []
                Fixtures.nestedObject empty 0 (VObject [("b", VString "x")])
                (mkError "Struct: failed on b: u8:: u8: cannot decode the input"))
      as (Hthrow & _).
    + exact nestedTypes_resolve.
    + reflexivity.
    + exact I.
    + intros j key T Hj. discriminate.
    + reflexivity.
    + reflexivity.
    + vm_compute. reflexivity.
    + exact Hthrow.
Defined.

(** The field [b] goes by [second] in JSON: when its constructor throws,
    the message names [second], and the field's own name [b] occurs
    nowhere in it. *)
Lemma child_error_wrapped_counterexample :
  mapToTypeMap Fixtures.registry Fixtures.abTypes = inr Fixtures.abTypeMap /\
  Fixtures.abTypeMap !! 1 = Some ("b", Fixtures.U8) /\
  construct Fixtures.U8 (VString "x") = inl (mkError "u8: cannot decode the input") /\
  Fixtures.Struct_new Fixtures.abTypes (VArray [VNumber 1; VString "x"])
    Fixtures.secondMap 0
  = (inl (mkError "Struct: failed on second: u8:: u8: cannot decode the input"), 3) /\
  "Struct: failed on second: u8:: u8: cannot decode the input"
  <> failedOnMessage "b" (typeLabel Fixtures.U8) "u8: cannot decode the input" /\
  String.index 0 "b" "Struct: failed on second: u8:: u8: cannot decode the input" = None.
Proof.
  split; [exact abTypes_resolve|]. split_and!; try (vm_compute; reflexivity).
  vm_compute. discriminate.
Qed.

(** A second struct constructed from [abStruct] holds the instances of
    [abStruct], and no constructor was called. *)
Lemma construct_from_struct_witness :
  Fixtures.Struct_new Fixtures.abTypes Fixtures.baObject empty 0
  = (inr Fixtures.abStruct, 2) /\
  exists s',
    Fixtures.Struct_new Fixtures.abTypes
      (VStruct Fixtures.self (entries Fixtures.abStruct)) empty 2 = (inr s', 2) /\
    entries s' = entries Fixtures.abStruct /\
    map (fun kv => oid kv.2) (entries s') = [0; 1].
Proof.
  split; [exact abStruct_built|].
  destruct (construct_from_struct Fixtures.registry Fixtures.stringCamelCase
              Fixtures.stringify Fixtures.isHex Fixtures.hexToU8a
              Fixtures.inherited
              Fixtures.inheritedFlag
              Fixtures.abTypes Fixtures.baObject empty 0 Fixtures.abStruct 2
              Fixtures.self empty 2 abStruct_built)
    as (s' & Hnew & Hent & _ & Hoid & _).
  exists s'. split; [exact Hnew|]. split; [exact Hent|]. rewrite Hoid. reflexivity.
Defined.

(** From the object [{ foo_bar: 2 }], the field [fooBar] is built from 2,
    found among the camel-cased keys. From [{ b: 2, _: 9 }], the field
    [a] is not found under its name, the keys cannot all be camel-cased,
    and the construction fails on [a]. *)
Lemma keyed_input_lookup_witness :
  mapToTypeMap Fixtures.registry Fixtures.fooTypes = inr Fixtures.fooTypeMap /\
  isKeyed Fixtures.fooObject = true /\
  Forall (fun kt => kt.1 <> "") Fixtures.fooTypeMap /\
  lookupByShape Fixtures.stringCamelCase Fixtures.inherited Fixtures.fooObject "fooBar"
  = inr (VNumber 2) /\
  (exists s h',
     Fixtures.Struct_new Fixtures.fooTypes Fixtures.fooObject empty 0 = (inr s, h') /\
     exists c, get s "fooBar" = Some c /\ builtFrom Fixtures.U8 (VNumber 2) c) /\
  exists h',
    Fixtures.Struct_new Fixtures.abTypes Fixtures.badKeyObject empty 0
    = (inl (mkError ("Struct: failed on a: u8:: "
                     +:+ "Cannot read properties of undefined (reading 'toUpperCase')")),
       h').
Proof.
  assert (Forall (fun kt : string * CodecClass => kt.1 <> "") Fixtures.fooTypeMap) as Hne.
  { repeat constructor. discriminate. }
  split; [exact fooTypes_resolve|]. split; [reflexivity|]. split; [exact Hne|].
  split; [reflexivity|]. split.
  - destruct (keyed_input_lookup Fixtures.registry Fixtures.stringCamelCase
                Fixtures.stringify Fixtures.isHex Fixtures.hexToU8a Fixtures.inherited
                Fixtures.fooTypes Fixtures.fooTypeMap Fixtures.fooObject empty 0
                fooTypes_resolve eq_refl Hne) as (Hfields & Htotal & _).
    destruct Htotal as (s & h' & Hnew).
    { intros key T Hin. apply list_elem_of_In in Hin. simpl in Hin.
      destruct Hin as [[= <- <-]|[]]. exists (VNumber 2). split; [reflexivity|].
      right. eexists. reflexivity. }
    exists s, h'. split; [exact Hnew|].
    destruct (Hfields s h' Hnew 0 "fooBar" Fixtures.U8 eq_refl)
      as (found & c & Hfound & _ & Hget & Hb).
    vm_compute in Hfound. injection Hfound as <-.
    exists c. split; [exact Hget | exact Hb].
  - assert (Forall (fun kt : string * CodecClass => kt.1 <> "") Fixtures.abTypeMap)
      as Hne'.
    { repeat constructor; discriminate. }
    destruct (keyed_input_lookup Fixtures.registry Fixtures.stringCamelCase
                Fixtures.stringify Fixtures.isHex Fixtures.hexToU8a Fixtures.inherited
                Fixtures.abTypes Fixtures.abTypeMap Fixtures.badKeyObject empty 0
                abTypes_resolve eq_refl Hne') as (_ & _ & Hthrows).
    apply (Hthrows [] "a" Fixtures.U8 [("b", Fixtures.U8)]
             (mkError "Cannot read properties of undefined (reading 'toUpperCase')")
             eq_refl).
    + intros key' T' Hin. by apply elem_of_nil in Hin.
    + reflexivity.
Defined.

(** From the [Map] [{ foo_bar -> 2 }], the field [fooBar] is built from
    [undefined]: no camel-case translation is made for a [Map], although
    the lookup with a camel-case translation finds 2. *)
Lemma keyed_input_lookup_counterexample :
  Fixtures.Struct_new Fixtures.fooTypes Fixtures.fooMap empty 0
  = (inr Fixtures.fooFromMap, 1) /\
  lookupEitherShape Fixtures.stringCamelCase Fixtures.inherited Fixtures.fooMap
    (jsonKeyOf empty "fooBar")
  = inr (VNumber 2) /\
  (forall camelCase chain,
     fieldInput camelCase chain Fixtures.fooMap empty "fooBar" 0 = inr VUndefined) /\
  toU8a Fixtures.inheritedFlag Fixtures.fooFromMap BareUndefined = [x00]%byte /\
  exists c,
    get Fixtures.fooFromMap "fooBar" = Some c /\
    isDefaultOf Fixtures.U8 c /\
    ~ builtFrom Fixtures.U8 (VNumber 2) c.
Proof.
  split; [exact fooFromMap_built|]. split_and!; try (vm_compute; reflexivity).
  eexists. split; [vm_compute; reflexivity|]. split; [reflexivity|].
  intros [Hb|[_ Hb]]; [discriminate|].
  vm_compute in Hb. injection Hb as Hb _.
  apply (f_equal (fun f => f BareUndefined)) in Hb. discriminate.
Qed.



(** Built from [{ b: 2, a: 1 }], the struct declared as [a] then [b]
    iterates [a] then [b]. *)
Lemma iteration_order_witness :
  NoDup (map fst Fixtures.abTypes) /\
  Fixtures.Struct_new Fixtures.abTypes Fixtures.baObject empty 0
  = (inr Fixtures.abStruct, 2) /\
  structKeysAre (map fst Fixtures.abTypes) Fixtures.baObject /\
  defKeys Fixtures.abStruct = ["a"; "b"] /\
  exists c, getAtIndex Fixtures.abStruct 1 = Some c /\
            get Fixtures.abStruct "b" = Some c.
Proof.
  pose proof abTypes_NoDup as Hnd.
  split; [exact Hnd|]. split; [exact abStruct_built|]. split; [exact I|].
  destruct (iteration_order Fixtures.registry Fixtures.stringCamelCase
              Fixtures.stringify Fixtures.isHex Fixtures.hexToU8a Fixtures.inherited
              Fixtures.abTypes Fixtures.baObject empty 0 Fixtures.abStruct 2
              Hnd abStruct_built) as (Hdef & _ & Hrest).
  destruct (Hrest I) as (_ & _ & Hidx).
  split; [exact Hdef|]. apply Hidx. rewrite Hdef. reflexivity.
Defined.

(** Built from a struct declared as [b] then [a], the struct declared as
    [a] then [b] iterates [b] then [a]: at index 0 it returns the codec of
    [b], not the codec stored under its first declared key [a]. *)
Lemma iteration_order_counterexample :
  Fixtures.Struct_new Fixtures.abTypes
    (VStruct Fixtures.self (entries Fixtures.baStruct)) empty 3
  = (inr Fixtures.swapped, 3) /\
  defKeys Fixtures.swapped !! 0 = Some "a" /\
  map fst (entries Fixtures.swapped) <> defKeys Fixtures.swapped /\
  fmap (fun c => c_toU8a (impl c) BareUndefined) (getAtIndex Fixtures.swapped 0)
  = Some [x02]%byte /\
  fmap (fun c => c_toU8a (impl c) BareUndefined) (get Fixtures.swapped "a")
  = Some [x01]%byte /\
  getAtIndex Fixtures.swapped 0 <> get Fixtures.swapped "a".
Proof.
  split; [exact swapped_built|]. split_and!; try (vm_compute; reflexivity).
  - vm_compute. discriminate.
  - intros H. apply (f_equal (fmap oid)) in H. vm_compute in H. discriminate.
Qed.
(** * Further properties of Struct.ts *)


(** ** Lists of properties *)

Lemma ownProp_set {V} (m : list (string * V)) k v k' :
  ownProp (propSet m k v) k' = if String.eqb k k' then Some v else ownProp m k'.
Proof.
  unfold propSet. induction m as [|[k0 v0] m IH]; simpl.
  - done.
  - destruct (String.eqb_spec k0 k) as [->|Hne]; simpl.
    + by destruct (String.eqb k k').
    + rewrite IH. destruct (String.eqb_spec k0 k') as [->|Hne']; [|done].
      destruct (String.eqb_spec k k'); [congruence | done].
Qed.

Lemma ownProp_find {V} (m : list (string * V)) k :
  ownProp m k = snd <$> find (fun e => String.eqb e.1 k) m.
Proof.
  induction m as [|[k0 v0] m IH]; simpl; [done|].
  by destruct (String.eqb k0 k).
Qed.

Lemma find_skip {A} (f : A -> bool) l1 x l2 :
  f x = false -> find f (l1 ++ x :: l2) = find f (l1 ++ l2).
Proof.
  intros Hx. induction l1 as [|y l1 IH]; simpl.
  - by rewrite Hx.
  - by rewrite IH.
Qed.

Lemma find_Some_unique {A} (f : A -> bool) (l : list A) x :
  (forall y z, elem_of y l -> elem_of z l -> f y = true -> f z = true -> y = z) ->
  elem_of x l -> f x = true -> find f l = Some x.
Proof.
  intros Huniq Hx Hfx. induction l as [|y l IH]; [by apply elem_of_nil in Hx|].
  simpl. destruct (f y) eqn:Hfy.
  - f_equal. apply Huniq; [by left | done | done | done].
  - apply IH.
    + intros a b Ha Hb. apply Huniq; by right.
    + apply elem_of_cons in Hx as [->|Hx]; [congruence | done].
Qed.

Lemma find_None_all {A} (f : A -> bool) (l : list A) :
  find f l = None <-> forall x, elem_of x l -> f x = false.
Proof.
  induction l as [|y l IH]; simpl.
  - split; [|done]. intros _ x Hx. by apply elem_of_nil in Hx.
  - destruct (f y) eqn:Hfy.
    + split; [done|]. intros H. specialize (H y (list_elem_of_here _ _)). congruence.
    + rewrite IH. split.
      * intros H x [->|Hx]%elem_of_cons; [done | by apply H].
      * intros H x Hx. apply H. by right.
Qed.

Lemma find_elem {A} (f : A -> bool) (l : list A) x :
  find f l = Some x -> elem_of x l /\ f x = true.
Proof.
  induction l as [|y l IH]; simpl; [done|].
  destruct (f y) eqn:Hfy.
  - intros [= ->]. split; [by left | done].
  - intros [Hx Hfx]%IH. split; [by right | done].
Qed.

(** With at most one match, the order of the list does not matter. *)
Lemma find_Permutation {A} (f : A -> bool) (l1 l2 : list A) :
  Permutation l1 l2 ->
  (forall y z, elem_of y l1 -> elem_of z l1 -> f y = true -> f z = true -> y = z) ->
  find f l1 = find f l2.
Proof.
  intros Hperm Huniq. destruct (find f l1) as [x|] eqn:H1.
  - apply find_elem in H1 as [Hx Hfx]. symmetry.
    apply find_Some_unique; [|by rewrite <- Hperm|done].
    intros y z Hy Hz. apply Huniq; by rewrite Hperm.
  - symmetry. apply find_None_all. intros x Hx. rewrite find_None_all in H1.
    apply H1. by rewrite Hperm.
Qed.

Lemma NoDup_fmap_unique {A B} (g : A -> B) (l : list A) y z :
  NoDup (map g l) -> elem_of y l -> elem_of z l -> g y = g z -> y = z.
Proof.
  induction l as [|x l IH]; simpl; [by intros _ Hy; apply elem_of_nil in Hy|].
  intros [Hx Hnd]%NoDup_cons Hy Hz Hg.
  apply elem_of_cons in Hy as [->|Hy]; apply elem_of_cons in Hz as [->|Hz]; try done.
  - exfalso. apply Hx. rewrite Hg. apply list_elem_of_fmap. by exists z.
  - exfalso. apply Hx. rewrite <- Hg. apply list_elem_of_fmap. by exists y.
  - by apply IH.
Qed.

Lemma Map_get_is_Some {V} (m : list (string * V)) k :
  is_Some (Map_get m k) <-> elem_of k (map fst m).
Proof.
  induction m as [|[k' v] m IH]; simpl.
  - split; [by intros [? ?] | by intros ?%elem_of_nil].
  - destruct (String.eqb_spec k' k) as [->|Hne].
    + split; [by left | by eauto].
    + rewrite IH. split; [by right|]. intros [?|?]%elem_of_cons; [congruence | done].
Qed.

Lemma elem_of_rev {A} (l : list A) x : elem_of x (rev l) <-> elem_of x l.
Proof. by rewrite !list_elem_of_In, <- in_rev. Qed.

Lemma find_app_or {A} (f : A -> bool) (l1 l2 : list A) :
  find f (l1 ++ l2) = match find f l1 with
                      | Some x => Some x
                      | None => find f l2
                      end.
Proof.
  induction l1 as [|y l1 IH]; simpl; [done|]. by destruct (f y).
Qed.

(** ** The constructor, on the inputs and in the order it works *)

Section ConstructorExtras.
Variable registry : Registry.
Variable stringCamelCase : string -> Error + string.
Variable stringify : JsValue -> string.
Variable isHex : string -> bool.
Variable hexToU8a : string -> list byte.
Variable inherited : option Codec -> string -> option JsValue.

Local Abbreviation decodeFields := (decodeFields stringCamelCase inherited).
Local Abbreviation decodeStructFromObject :=
  (decodeStructFromObject stringCamelCase stringify inherited).
Local Abbreviation decodeValue :=
  (decodeValue stringCamelCase stringify isHex hexToU8a inherited).
Local Abbreviation Struct_new :=
  (Struct_new registry stringCamelCase stringify isHex hexToU8a inherited).
Local Abbreviation fieldInput := (fieldInput stringCamelCase inherited).
Local Abbreviation mapToTypeMap := (mapToTypeMap registry).
Local Abbreviation camelKeys := (camelKeys stringCamelCase).
Local Abbreviation propGet := (propGet inherited).

(** The constructor on an array, a [Map] or an object of fitting arity is
    the loop over the resolved fields. *)
Lemma Struct_new_structured Types typeMap value jsonMap h :
  mapToTypeMap Types = inr typeMap ->
  isStructured value = true -> arityFits typeMap value ->
  Struct_new Types value jsonMap h
  = match decodeFields value jsonMap typeMap 0 None h with
    | (inr raw, h') => (inr (mkStruct (Map_new raw) 0 jsonMap typeMap), h')
    | (inl e, h') => (inl e, h')
    end.
Proof.
  intros Hm Hs Ha.
  destruct (decodeFields value jsonMap typeMap 0 None h) as [[e|raw] h'] eqn:Hloop.
  - eapply Struct_new_throws; [exact Hm|].
    rewrite decodeValue_structured, decodeStructFromObject_structured by done.
    unfold bind. by rewrite Hloop.
  - eapply Struct_new_ok; [exact Hm|].
    rewrite decodeValue_structured, decodeStructFromObject_structured by done.
    unfold bind. by rewrite Hloop.
Qed.

(** X1. A primitive input that is truthy and not a hex string (true, a
    number other than 0, a string that is neither empty nor hex) is
    refused with [Struct: Cannot decode value ...], before any child is
    constructed. *)
Theorem truthy_primitive_refused Types typeMap value jsonMap h :
  mapToTypeMap Types = inr typeMap ->
  isPrimitive value = true -> truthy value = true -> notHex isHex value ->
  Struct_new Types value jsonMap h
  = (inl (mkError ("Struct: Cannot decode value " +:+ stringify value +:+ " (typeof "
                   +:+ typeof value +:+ "), expected an input object, map or array")), h).
Proof.
  intros Hm Hp Ht Hx. eapply Struct_new_throws; [exact Hm|].
  assert (orEmptyObject value = value) as Hor by (unfold orEmptyObject; by rewrite Ht).
  assert (isObject value = false) as Hobj.
  { unfold isObject. destruct value; try discriminate; simpl; by rewrite andb_false_r. }
  assert (decodeValue typeMap value jsonMap
          = decodeStructFromObject typeMap (orEmptyObject value) jsonMap) as ->.
  { destruct value; try discriminate; try done. simpl in *. by rewrite Hx. }
  rewrite Hor. unfold decodeStructFromObject, bind.
  destruct value; try discriminate; simpl in *; by rewrite Hobj.
Qed.

(** X2. A primitive input that is falsy and not a hex string (false, 0,
    the empty string, [null]) is constructed exactly as no input is: the
    default struct, not an error. *)
Theorem falsy_primitive_as_absent Types value jsonMap h :
  isPrimitive value = true -> truthy value = false -> notHex isHex value ->
  Struct_new Types value jsonMap h = Struct_new Types VUndefined jsonMap h.
Proof.
  intros Hp Ht Hx. unfold Struct_new, bind.
  destruct (lift (mapToTypeMap Types) h) as [[e|typeMap] h1]; [done|].
  assert (orEmptyObject value = VObject []) as Hor by (unfold orEmptyObject; by rewrite Ht).
  assert (decodeValue typeMap value jsonMap
          = decodeStructFromObject typeMap (orEmptyObject value) jsonMap) as ->.
  { destruct value; try discriminate; try done. simpl in *. by rewrite Hx. }
  by rewrite Hor.
Qed.

(** X3. A value that is already an instance of its field's class is
    stored as it is: when every field is assigned such an instance, the
    struct holds these very instances and no constructor is called. *)
Theorem instances_are_stored_as_is Types typeMap value jsonMap h :
  mapToTypeMap Types = inr typeMap ->
  isStructured value = true -> arityFits typeMap value ->
  (forall i key T, typeMap !! i = Some (key, T) ->
     exists assign, fieldInput value jsonMap key i = inr assign /\
                    is_Some (instanceOf T assign)) ->
  exists s,
    Struct_new Types value jsonMap h = (inr s, h) /\
    forall i key T, typeMap !! i = Some (key, T) ->
      exists assign c,
        fieldInput value jsonMap key i = inr assign /\
        entries s !! i = Some (key, c) /\ instanceOf T assign = Some c.
Proof.
  intros Hm Hs Ha Hinst.
  destruct (decodeFields_reuse stringCamelCase inherited value jsonMap typeMap 0 None h)
    as (raw & Hloop & Hkeys & Hall); [done | exact Hinst |].
  eexists. split.
  - rewrite (Struct_new_structured _ _ _ _ _ Hm Hs Ha), Hloop. reflexivity.
  - simpl. rewrite Map_new_id by (rewrite Hkeys; by eapply mapToTypeMap_NoDup).
    exact Hall.
Qed.

(** X4. When no assigned value is an instance of its field's class, a
    construction that returns has called one constructor per field, in
    declared order: the [i]-th field holds the [i]-th instance created,
    whatever the key order of the input. *)
Theorem fields_constructed_in_declared_order Types typeMap value jsonMap h s h' :
  mapToTypeMap Types = inr typeMap ->
  isStructured value = true -> arityFits typeMap value ->
  (forall i key T assign, typeMap !! i = Some (key, T) ->
     fieldInput value jsonMap key i = inr assign ->
     instanceOf T assign = None) ->
  Struct_new Types value jsonMap h = (inr s, h') ->
  h' = h + length typeMap /\
  forall i key c, entries s !! i = Some (key, c) -> oid c = h + i.
Proof.
  intros Hm Hs Ha Hnone Hnew.
  rewrite (Struct_new_structured _ _ _ _ _ Hm Hs Ha) in Hnew.
  destruct (decodeFields value jsonMap typeMap 0 None h) as [[e|raw] h1] eqn:Hloop;
    [discriminate|].
  injection Hnew as <- <-.
  pose proof Hloop as Hok. eapply decodeFields_ok in Hok as [Hkeys _]; [|done].
  eapply decodeFields_fresh in Hloop as [Hh Hall]; [|done|exact Hnone].
  split; [done|]. simpl.
  rewrite Map_new_id by (rewrite Hkeys; by eapply mapToTypeMap_NoDup).
  exact Hall.
Qed.

(** X5. The construction stops at the first field whose constructor
    throws: with [n] fields assigned and built before it, [n + 2]
    constructors have been called (the [n] fields, the failing one, and
    the default instance that names the type in the message), and none
    for the fields that follow. *)
Theorem construction_stops_at_first_failure
    Types pre key T post value jsonMap h assign cerr :
  mapToTypeMap Types = inr (pre ++ (key, T) :: post) ->
  isStructured value = true ->
  arityFits (pre ++ (key, T) :: post) value ->
  (forall j key' T', pre !! j = Some (key', T') ->
     exists assign', fieldInput value jsonMap key' j = inr assign' /\
                     instanceOf T' assign' = None /\
                     exists im, construct T' assign' = inr im) ->
  fieldInput value jsonMap key (length pre) = inr assign ->
  instanceOf T assign = None ->
  construct T assign = inl cerr ->
  Struct_new Types value jsonMap h
  = (inl (mkError ("Struct: failed on " +:+ jsonKeyOf jsonMap key +:+ ": "
                   +:+ typeLabel T +:+ ":: " +:+ message cerr)),
     h + length pre + 2).
Proof.
  intros Hm Hs Ha Hpre Hin Hinst Hctor.
  rewrite (Struct_new_structured _ _ _ _ _ Hm Hs Ha).
  rewrite (decodeFields_throws_heap stringCamelCase inherited value jsonMap pre key T post
             0 None h cerr); try done.
  - simpl. by rewrite Hin.
  - simpl. by rewrite Hin.
Qed.

(** X19. An own key of an object input that [stringCamelCase] throws on
    fails the construction at the first field that the object does not
    hold under its JSON key, whatever the object holds for the other
    fields: the keys are camel-cased inside the [try] of that field, so
    the helper's error is thrown behind that field's JSON key and type,
    after one constructor call more than the fields built before it
    (the default instance that names the type). *)
Theorem key_without_word_fails_the_field
    Types pre key T post props jsonMap h error :
  mapToTypeMap Types = inr (pre ++ (key, T) :: post) ->
  (forall j key' T', pre !! j = Some (key', T') ->
     exists assign', fieldInput (VObject props) jsonMap key' j = inr assign' /\
                     instanceOf T' assign' = None /\
                     exists im, construct T' assign' = inr im) ->
  jsonKeyOf jsonMap key <> "" ->
  propGet (VObject props) (jsonKeyOf jsonMap key) = VUndefined ->
  camelKeys props = inl error ->
  Struct_new Types (VObject props) jsonMap h
  = (inl (mkError ("Struct: failed on " +:+ jsonKeyOf jsonMap key +:+ ": "
                   +:+ typeLabel T +:+ ":: " +:+ message error)),
     h + length pre + 1).
Proof.
  intros Hm Hpre Hjk Hdirect Hkeys.
  assert (fieldInput (VObject props) jsonMap key (length pre) = inl error) as Hin.
  { unfold fieldInput, assignField. simpl.
    rewrite andKey_nonempty, Hdirect by done. simpl.
    unfold camelCased. rewrite camelCasedFrom_keys. simpl. by rewrite Hkeys. }
  rewrite (Struct_new_structured Types _ (VObject props) jsonMap h Hm eq_refl I).
  rewrite (decodeFields_throws_heap stringCamelCase inherited (VObject props) jsonMap
             pre key T post 0 None h error); try done.
  - simpl. by rewrite Hin.
  - simpl. by rewrite Hin.
Qed.

(** X6. An array input is assigned by position and never by name: the
    JSON aliases play no part in what is built, they only show in the
    message of an error. *)
Theorem array_input_ignores_aliases Types xs jsonMap1 jsonMap2 h :
  sameOutcome (builtEntries (Struct_new Types (VArray xs) jsonMap1 h))
              (builtEntries (Struct_new Types (VArray xs) jsonMap2 h)).
Proof.
  destruct (mapToTypeMap Types) as [e|typeMap] eqn:Hm.
  { unfold Struct_new, bind, lift. by rewrite Hm. }
  destruct (decide (length xs = length typeMap)) as [Hlen|Hlen].
  - rewrite !(Struct_new_structured _ typeMap) by done.
    destruct (decodeFields_agree stringCamelCase inherited (VArray xs) (VArray xs)
                jsonMap1 jsonMap2 typeMap 0 None None h) as [Hsame _];
      [done | done | done |].
    unfold sameOutcome in *.
    destruct (decodeFields (VArray xs) jsonMap1 typeMap 0 None h) as [[?|?] ?],
             (decodeFields (VArray xs) jsonMap2 typeMap 0 None h) as [[?|?] ?];
      simpl; try done.
    by destruct Hsame as [-> ->].
  - assert (forall jsonMap,
              Struct_new Types (VArray xs) jsonMap h
              = (inl (mkError (unableToMap stringify (VArray xs) (map fst typeMap))), h))
      as Hthrow.
    { intros jsonMap. eapply Struct_new_throws; [exact Hm|].
      by apply decodeStructFromObject_arity. }
    by rewrite !Hthrow.
Qed.

(** X7. Only the decoding of bytes reports a consumed length: for every
    input that is neither a [Uint8Array] nor a hex string,
    [initialU8aLength] is 0. *)
Theorem initialU8aLength_zero Types value jsonMap h s h' :
  isBytes isHex value = false ->
  Struct_new Types value jsonMap h = (inr s, h') ->
  initialU8aLength s = 0.
Proof.
  intros Hb (typeMap & decoded & len & _ & Hd & ->)%Struct_new_inv. simpl.
  destruct value; simpl in Hb, Hd; try discriminate;
    try (by apply decodeStructFromObject_ok in Hd as (-> & _)).
  - rewrite Hb in Hd. by apply decodeStructFromObject_ok in Hd as (-> & _).
  - unfold ret in Hd. by simplify_eq.
Qed.

End ConstructorExtras.
(** ** Object-shaped input *)

Section ObjectExtras.
Variable registry : Registry.
Variable stringCamelCase : string -> Error + string.
Variable stringify : JsValue -> string.
Variable isHex : string -> bool.
Variable hexToU8a : string -> list byte.
Variable inherited : option Codec -> string -> option JsValue.

Local Abbreviation decodeFields := (decodeFields stringCamelCase inherited).
Local Abbreviation Struct_new :=
  (Struct_new registry stringCamelCase stringify isHex hexToU8a inherited).
Local Abbreviation fieldInput := (fieldInput stringCamelCase inherited).
Local Abbreviation mapToTypeMap := (mapToTypeMap registry).
Local Abbreviation camelKey := (camelKey stringCamelCase).
Local Abbreviation camelKeys := (camelKeys stringCamelCase).
Local Abbreviation camelEntry := (camelEntry stringCamelCase).
Local Abbreviation camelLookup := (camelLookup stringCamelCase inherited).
Local Abbreviation lookupObject := (lookupObject stringCamelCase inherited).
Local Abbreviation propGet := (propGet inherited).

(** What an object assigns to a field, the empty name included. *)
Lemma fieldInput_object props jsonMap key i :
  fieldInput (VObject props) jsonMap key i
  = if String.eqb (jsonKeyOf jsonMap key) "" then inr (VString "")
    else lookupObject (VObject props) (jsonKeyOf jsonMap key).
Proof.
  unfold fieldInput. generalize (jsonKeyOf jsonMap key) as jk. intros jk.
  unfold assignField, andKey, lookupObject. simpl.
  destruct (String.eqb jk "") eqn:Hjk; simpl; [done|].
  destruct (isUndefined (propGet (VObject props) jk)); simpl; [|done].
  rewrite <- camelCased_lookup.
  by destruct (camelCased stringCamelCase props).
Qed.

(** Two objects that answer the lookups of the declared fields alike are
    constructed alike. *)
Lemma Struct_new_object_agree Types props1 props2 jsonMap h :
  (forall typeMap key T, mapToTypeMap Types = inr typeMap ->
     elem_of (key, T) typeMap ->
     lookupObject (VObject props1) (jsonKeyOf jsonMap key)
     = lookupObject (VObject props2) (jsonKeyOf jsonMap key)) ->
  Struct_new Types (VObject props1) jsonMap h = Struct_new Types (VObject props2) jsonMap h.
Proof.
  intros Hsame. destruct (mapToTypeMap Types) as [e|typeMap] eqn:Hm.
  { unfold Struct_new, bind, lift. by rewrite Hm. }
  rewrite !(Struct_new_structured _ _ _ _ _ _ _ typeMap) by done.
  destruct (decodeFields_agree stringCamelCase inherited (VObject props1) (VObject props2)
              jsonMap jsonMap typeMap 0 None None h) as [_ Heq];
    [done | done | |].
  - intros j key T Hj. rewrite !fieldInput_object.
    rewrite (Hsame typeMap key T eq_refl); [done|]. by eapply list_elem_of_lookup_2.
  - by rewrite Heq.
Qed.

Lemma camelKeys_spec entries :
  match camelKeys entries with
  | inl error => exists k v, elem_of (k, v) entries /\ stringCamelCase k = inl error
  | inr es =>
      es = map camelEntry entries /\
      Forall (fun e => is_Some (camelKey e.1)) entries
  end.
Proof.
  induction entries as [|[k v] entries IH]; simpl; [done|].
  destruct (stringCamelCase k) as [e|k'] eqn:Hk.
  - exists k, v. split; [by left | done].
  - destruct (camelKeys entries) as [e|es].
    + destruct IH as (k0 & v0 & Hin & Hk0). exists k0, v0. split; [by right | done].
    + destruct IH as [-> Hall]. split.
      * unfold camelEntry at 2, camelKey. simpl. by rewrite Hk.
      * constructor; [|done]. unfold camelKey. simpl. rewrite Hk. by eexists.
Qed.

Lemma camelKeys_app entries1 entries2 :
  camelKeys (entries1 ++ entries2)
  = match camelKeys entries1 with
    | inl error => inl error
    | inr es1 =>
        match camelKeys entries2 with
        | inl error => inl error
        | inr es2 => inr (es1 ++ es2)
        end
    end.
Proof.
  induction entries1 as [|[k v] entries1 IH]; simpl.
  - by destruct (camelKeys entries2).
  - destruct (stringCamelCase k); [done|]. rewrite IH.
    destruct (camelKeys entries1); [done|]. by destruct (camelKeys entries2).
Qed.

Lemma lookupObject_skip props1 k k' v props2 jsonKey :
  stringCamelCase k = inr k' -> jsonKey <> k -> jsonKey <> k' ->
  lookupObject (VObject (props1 ++ (k, v) :: props2)) jsonKey
  = lookupObject (VObject (props1 ++ props2)) jsonKey.
Proof.
  intros Hcamel Hk Hc. unfold lookupObject, propGet, camelLookup. simpl.
  rewrite !ownProp_find, find_skip by (simpl; by apply String.eqb_neq).
  rewrite !camelKeys_app. simpl. rewrite Hcamel.
  destruct (camelKeys props1) as [e|es1]; [done|].
  destruct (camelKeys props2) as [e|es2]; [done|].
  rewrite !rev_app_distr. simpl. rewrite <- app_assoc. simpl.
  rewrite find_skip by (simpl; by apply String.eqb_neq). done.
Qed.

Lemma lookupObject_Permutation props1 props2 jsonKey :
  Permutation props1 props2 ->
  NoDup (map (fun e => camelKey e.1) props1) ->
  lookupObject (VObject props1) jsonKey = lookupObject (VObject props2) jsonKey.
Proof.
  intros Hperm Hnd. unfold lookupObject, propGet. simpl. rewrite !ownProp_find.
  assert (NoDup (map fst props1)) as Hkeys.
  { rewrite <- (map_map fst camelKey) in Hnd. by apply NoDup_fmap_1 in Hnd. }
  rewrite (find_Permutation _ props1 props2 Hperm).
  2:{ intros y z Hy Hz Hfy Hfz. apply String.eqb_eq in Hfy, Hfz.
      apply (NoDup_fmap_unique fst props1); try done. congruence. }
  destruct (isUndefined _); [|done].
  unfold camelLookup.
  pose proof (camelKeys_spec props1) as H1. pose proof (camelKeys_spec props2) as H2.
  destruct (camelKeys props1) as [e1|es1], (camelKeys props2) as [e2|es2].
  - destruct H1 as (k1 & v1 & Hin1 & Hk1), H2 as (k2 & v2 & Hin2 & Hk2).
    rewrite <- Hperm in Hin2.
    assert ((k1, v1) = (k2, v2)) as Heq.
    { apply (NoDup_fmap_unique (fun e => camelKey e.1) props1); try done.
      unfold camelKey. simpl. by rewrite Hk1, Hk2. }
    injection Heq as <- <-. congruence.
  - exfalso. destruct H1 as (k1 & v1 & Hin1 & Hk1), H2 as [_ Hall].
    rewrite Hperm in Hin1. rewrite Forall_forall in Hall.
    destruct (Hall _ Hin1) as [k' Hk']. unfold camelKey in Hk'. simpl in Hk'.
    by rewrite Hk1 in Hk'.
  - exfalso. destruct H2 as (k2 & v2 & Hin2 & Hk2), H1 as [_ Hall].
    rewrite <- Hperm in Hin2. rewrite Forall_forall in Hall.
    destruct (Hall _ Hin2) as [k' Hk']. unfold camelKey in Hk'. simpl in Hk'.
    by rewrite Hk2 in Hk'.
  - destruct H1 as [-> Hall1], H2 as [-> _]. f_equal.
    rewrite (find_Permutation _ (rev (map camelEntry props1))
               (rev (map camelEntry props2))); [done | |].
    + rewrite <- !Permutation_rev. by apply Permutation_map.
    + intros y z Hy Hz Hfy Hfz. apply String.eqb_eq in Hfy, Hfz.
      apply (proj1 (elem_of_rev _ _)) in Hy, Hz.
      apply list_elem_of_fmap in Hy as (a & -> & Ha), Hz as (b & -> & Hb).
      f_equal. apply (NoDup_fmap_unique (fun e => camelKey e.1) props1); try done.
      rewrite Forall_forall in Hall1.
      destruct (Hall1 _ Ha) as [ka Hka], (Hall1 _ Hb) as [kb Hkb].
      unfold camelEntry in Hfy, Hfz. simpl in Hfy, Hfz.
      rewrite Hka in Hfy |- *. rewrite Hkb in Hfz |- *. simpl in Hfy, Hfz. congruence.
Qed.

(** X8. Keys of an object input that no field asks for are ignored: a
    property whose key can be camel-cased and, as it is and camel-cased,
    is the JSON key of no declared field changes nothing, neither the
    struct built nor the error thrown. *)
Theorem unknown_keys_are_ignored Types props1 k k' v props2 jsonMap h :
  stringCamelCase k = inr k' ->
  (forall typeMap key T, mapToTypeMap Types = inr typeMap ->
     elem_of (key, T) typeMap ->
     jsonKeyOf jsonMap key <> k /\ jsonKeyOf jsonMap key <> k') ->
  Struct_new Types (VObject (props1 ++ (k, v) :: props2)) jsonMap h
  = Struct_new Types (VObject (props1 ++ props2)) jsonMap h.
Proof.
  intros Hcamel Hk. apply Struct_new_object_agree. intros typeMap key T Hm Hin.
  destruct (Hk typeMap key T Hm Hin). by apply (lookupObject_skip _ _ k').
Qed.

(** X9. The order of the keys of an object input does not matter, as long
    as no two keys of the input camel-case to the same key and at most
    one of them cannot be camel-cased: two such objects with the same
    properties are constructed alike. *)
Theorem object_key_order_is_irrelevant Types props1 props2 jsonMap h :
  Permutation props1 props2 ->
  NoDup (map (fun e => camelKey e.1) props1) ->
  Struct_new Types (VObject props1) jsonMap h = Struct_new Types (VObject props2) jsonMap h.
Proof.
  intros Hperm Hnd. apply Struct_new_object_agree. intros typeMap key T _ _.
  by apply lookupObject_Permutation.
Qed.

(** X10. A declared alias replaces the field name in the lookup: when an
    object holds nothing under the alias (as it is or camel-cased) and
    inherits nothing under it, the field is built as a default, whatever
    the object holds under the field's own name. *)
Theorem alias_replaces_field_name Types typeMap props jsonMap h s h' i key alias T :
  mapToTypeMap Types = inr typeMap ->
  typeMap !! i = Some (key, T) ->
  jsonMap !! key = Some alias -> alias <> "" ->
  inherited None alias = None ->
  (forall k v, elem_of (k, v) props -> k <> alias /\ stringCamelCase k <> inr alias) ->
  Struct_new Types (VObject props) jsonMap h = (inr s, h') ->
  exists c, get s key = Some c /\ isDefaultOf T c.
Proof.
  intros Hm Hi Halias Hne Hproto Hprops Hnew.
  destruct (structured_fields registry stringCamelCase stringify isHex hexToU8a inherited
              Types typeMap (VObject props) jsonMap h s h' Hm eq_refl Hnew) as [_ Hall].
  destruct (Hall i key T Hi) as (assign & c & Hin & _ & Hget & _ & Hb).
  exists c. split; [done|].
  assert (jsonKeyOf jsonMap key = alias) as Hjk.
  { unfold jsonKeyOf. rewrite Halias. by apply String.eqb_neq in Hne as ->. }
  change (orEmptyObject (VObject props)) with (VObject props) in Hin.
  rewrite fieldInput_object, Hjk in Hin.
  apply String.eqb_neq in Hne. rewrite Hne in Hin.
  assert (assign = VUndefined) as ->; [|by destruct Hb as [Hb|[_ Hb]]].
  revert Hin. unfold lookupObject, propGet, camelLookup. simpl.
  rewrite ownProp_find.
  assert (find (fun e : string * JsValue => String.eqb e.1 alias) props = None) as ->.
  { apply find_None_all. intros [k v] Hin. simpl. apply String.eqb_neq.
    by destruct (Hprops k v Hin). }
  simpl. rewrite Hproto. simpl.
  pose proof (camelKeys_spec props) as Hspec.
  destruct (camelKeys props) as [e|es]; [discriminate|].
  destruct Hspec as [-> Hsome].
  assert (find (fun e : string * JsValue => String.eqb e.1 alias)
               (rev (map camelEntry props)) = None) as ->; [|by intros [= <-]].
  apply find_None_all. intros e Hin.
  apply (proj1 (elem_of_rev _ _)) in Hin.
  apply list_elem_of_fmap in Hin as ([k v] & -> & Hin).
  rewrite Forall_forall in Hsome. destruct (Hsome _ Hin) as [k' Hk'].
  unfold camelEntry. simpl in *. rewrite Hk'. simpl.
  apply String.eqb_neq. intros ->.
  destruct (Hprops k v Hin) as [_ Hc]. apply Hc.
  unfold camelKey in Hk'. destruct (stringCamelCase k); [discriminate|].
  by injection Hk' as ->.
Qed.

(** X11. A field whose JSON key is the empty string is assigned the empty
    string by a [Map] or an object, whatever the input holds: it is built
    from [''], not looked up. *)
Theorem empty_field_name_is_not_looked_up Types typeMap value jsonMap h s h' i T :
  mapToTypeMap Types = inr typeMap ->
  typeMap !! i = Some ("", T) ->
  jsonKeyOf jsonMap "" = "" ->
  isKeyed value = true ->
  Struct_new Types value jsonMap h = (inr s, h') ->
  exists c, get s "" = Some c /\ builtFrom T (VString "") c.
Proof.
  intros Hm Hi Hjk Hk Hnew.
  assert (decodeValue stringCamelCase stringify isHex hexToU8a inherited
            typeMap value jsonMap
          = decodeStructFromObject stringCamelCase stringify inherited typeMap
              (orEmptyObject value) jsonMap) as Hpath by (by destruct value).
  destruct (structured_fields registry stringCamelCase stringify isHex hexToU8a inherited
              Types typeMap value jsonMap h s h' Hm Hpath Hnew) as [_ Hall].
  destruct (Hall i "" T Hi) as (assign & c & Hin & _ & Hget & _ & Hb).
  exists c. split; [done|].
  assert (orEmptyObject value = value) as Hor by (by destruct value).
  rewrite Hor in Hin.
  assert (fieldInput value jsonMap "" i = inr (VString "")) as Hempty.
  { unfold fieldInput, assignField. rewrite Hjk.
    destruct value; try discriminate; reflexivity. }
  rewrite Hempty in Hin. by injection Hin as <-.
Qed.

(** X12. Reading a key that is not declared, or an index that is not below
    the number of fields, gives nothing: on a struct whose entries are in
    declared order, [get] finds a codec exactly under the declared keys
    and [getAtIndex] exactly below the number of fields. *)
Theorem reads_outside_the_fields Types value jsonMap h s h' :
  NoDup (map fst Types) ->
  structKeysAre (map fst Types) value ->
  Struct_new Types value jsonMap h = (inr s, h') ->
  (forall k, is_Some (get s k) <-> elem_of k (map fst Types)) /\
  (forall k, is_Some (getT s k) <-> elem_of k (map fst Types)) /\
  (forall i, is_Some (getAtIndex s i) <-> i < length Types).
Proof.
  intros HndT Hshape Hnew.
  pose proof (Struct_new_defKeys _ _ _ _ _ _ _ _ _ _ _ _ Hnew HndT) as Hdef.
  rewrite <- Hdef in Hshape.
  pose proof (Struct_new_keys _ _ _ _ _ _ _ _ _ _ _ _ Hnew Hshape) as Hkeys.
  rewrite Hdef in Hkeys.
  assert (forall k, is_Some (get s k) <-> elem_of k (map fst Types)) as Hget.
  { intros k. unfold get. by rewrite Map_get_is_Some, Hkeys. }
  split; [exact Hget|]. split; [exact Hget|].
  intros i. unfold getAtIndex, toArray, values. rewrite lookup_lt_is_Some.
  by rewrite length_map, <- (length_map fst (entries s)), Hkeys, length_map.
Qed.

End ObjectExtras.

(** ** The projections *)

Section ProjectionExtras.
Variable registry : Registry.
Variable stringCamelCase : string -> Error + string.
Variable stringify : JsValue -> string.
Variable isHex : string -> bool.
Variable hexToU8a : string -> list byte.
Variable inherited : option Codec -> string -> option JsValue.
Variable toJSONOf : Codec -> JsValue.
Variable toHumanOf : option bool -> Codec -> JsValue.

Local Abbreviation Struct_new :=
  (Struct_new registry stringCamelCase stringify isHex hexToU8a inherited).
Local Abbreviation fieldInput := (fieldInput stringCamelCase inherited).
Local Abbreviation mapToTypeMap := (mapToTypeMap registry).
Local Abbreviation toJSON := (toJSON toJSONOf).
Local Abbreviation toJSONFrom := (toJSONFrom toJSONOf).
Local Abbreviation toHuman := (toHuman toHumanOf).
Local Abbreviation toHumanFrom := (toHumanFrom toHumanOf).

Lemma lastUnder_cons jsonMap k v es jsonKey :
  lastUnder jsonMap ((k, v) :: es) jsonKey
  = match lastUnder jsonMap es jsonKey with
    | Some c => Some c
    | None => if String.eqb (jsonKeyOf jsonMap k) jsonKey then Some v else None
    end.
Proof.
  unfold lastUnder. simpl. rewrite find_app_or.
  destruct (find _ (rev es)); [done|]. simpl.
  by destruct (String.eqb (jsonKeyOf jsonMap k) jsonKey).
Qed.

Lemma toJSONFrom_lookup jsonMap es json jsonKey :
  ownProp (toJSONFrom jsonMap es json) jsonKey
  = match lastUnder jsonMap es jsonKey with
    | Some c => Some (toJSONOf c)
    | None => ownProp json jsonKey
    end.
Proof.
  revert json. induction es as [|[k v] es IH]; intros json; simpl; [done|].
  rewrite IH, lastUnder_cons, ownProp_set.
  destruct (lastUnder jsonMap es jsonKey); [done|].
  by destruct (String.eqb (jsonKeyOf jsonMap k) jsonKey).
Qed.

Lemma toJSONFrom_NoDup jsonMap es json :
  NoDup (map fst json) -> NoDup (map fst (toJSONFrom jsonMap es json)).
Proof.
  revert json. induction es as [|[k v] es IH]; intros json Hnd; simpl; [done|].
  apply IH. by apply Map_set_NoDup.
Qed.

Lemma toJSONFrom_fresh jsonMap es json :
  NoDup (map fst json ++ map (jsonKeyOf jsonMap) (map fst es)) ->
  toJSONFrom jsonMap es json
  = json ++ map (fun kc => (jsonKeyOf jsonMap kc.1, toJSONOf kc.2)) es.
Proof.
  revert json. induction es as [|[k v] es IH]; intros json Hnd; simpl.
  - by rewrite app_nil_r.
  - unfold propSet. rewrite Map_set_fresh.
    + rewrite IH; rewrite ?map_app, <- ?app_assoc; done.
    + apply NoDup_app in Hnd as (_ & Hdisj & _).
      intros Hin. apply (Hdisj _ Hin). by left.
Qed.

Lemma toHumanFrom_fresh isExtended es json :
  NoDup (map fst json ++ map fst es) ->
  toHumanFrom isExtended es json
  = json ++ map (fun kc => (kc.1, toHumanOf isExtended kc.2)) es.
Proof.
  revert json. induction es as [|[k v] es IH]; intros json Hnd; simpl.
  - by rewrite app_nil_r.
  - unfold propSet. rewrite Map_set_fresh.
    + rewrite IH; rewrite ?map_app, <- ?app_assoc; done.
    + apply NoDup_app in Hnd as (_ & Hdisj & _).
      intros Hin. apply (Hdisj _ Hin). by left.
Qed.

Lemma lastUnder_unique jsonMap es i key c :
  NoDup (map (jsonKeyOf jsonMap) (map fst es)) ->
  es !! i = Some (key, c) ->
  lastUnder jsonMap es (jsonKeyOf jsonMap key) = Some c.
Proof.
  intros Hnd Hi. unfold lastUnder.
  rewrite (find_Some_unique _ (rev es) (key, c)); [done | | |].
  - intros y z Hy Hz Hfy Hfz. apply String.eqb_eq in Hfy, Hfz.
    rewrite map_map in Hnd.
    apply (NoDup_fmap_unique (fun e => jsonKeyOf jsonMap e.1) es); try done.
    + by apply elem_of_rev.
    + by apply elem_of_rev.
    + simpl. congruence.
  - apply elem_of_rev. by eapply list_elem_of_lookup_2.
  - simpl. apply String.eqb_refl.
Qed.

(** X13. [toJSON] writes each field under its JSON key, a later field
    over an earlier one: the object has no key twice, and as its own
    property under a JSON key it holds the JSON of the last field that
    goes by this key, and none when no field does. Two fields that share
    a JSON key leave one property. *)
Theorem toJSON_last_field_wins (s : Struct) jsonKey :
  NoDup (map fst (toJSON s)) /\
  ownProp (toJSON s) jsonKey
  = toJSONOf <$> lastUnder (jsonMapOf s) (entries s) jsonKey.
Proof.
  split.
  - apply toJSONFrom_NoDup. constructor.
  - unfold toJSON. rewrite toJSONFrom_lookup.
    by destruct (lastUnder (jsonMapOf s) (entries s) jsonKey).
Qed.

(** X14. [toHuman] lists every field of a constructed struct once, in the
    order of the entries and under the field's own name (the JSON aliases
    are not applied); [toJSON] does the same under the JSON keys when
    these are distinct. *)
Theorem projections_list_the_fields Types value jsonMap h s h' isExtended :
  Struct_new Types value jsonMap h = (inr s, h') ->
  toHuman s isExtended = map (fun kc => (kc.1, toHumanOf isExtended kc.2)) (entries s) /\
  (NoDup (map (jsonKeyOf jsonMap) (map fst (entries s))) ->
   toJSON s = map (fun kc => (jsonKeyOf jsonMap kc.1, toJSONOf kc.2)) (entries s)).
Proof.
  intros Hnew.
  pose proof (Struct_new_NoDup _ _ _ _ _ _ _ _ _ _ _ _ Hnew) as Hnd.
  assert (jsonMapOf s = jsonMap) as Hjm.
  { by apply Struct_new_inv in Hnew as (? & ? & ? & _ & _ & ->). }
  split.
  - unfold toHuman. by rewrite toHumanFrom_fresh.
  - intros Hnd'. unfold toJSON. rewrite Hjm. by rewrite toJSONFrom_fresh.
Qed.

(** X15. Round trip through JSON: when the fields of a struct have
    distinct JSON keys, none empty, and JSON values that are not
    [undefined], constructing a struct of the same type and aliases from
    [toJSON()] builds every field from the JSON of the field it had. *)
Theorem toJSON_round_trip Types value jsonMap h s h1 h2 s' h3 :
  Struct_new Types value jsonMap h = (inr s, h1) ->
  structKeysAre (defKeys s) value ->
  NoDup (map (jsonKeyOf jsonMap) (defKeys s)) ->
  Forall (fun kc => kc.1 <> "" /\ isUndefined (toJSONOf kc.2) = false) (entries s) ->
  Struct_new Types (VObject (toJSON s)) jsonMap h2 = (inr s', h3) ->
  forall i key T, TypesOf s !! i = Some (key, T) ->
    exists c c', get s key = Some c /\ get s' key = Some c' /\
                 builtFrom T (toJSONOf c) c'.
Proof.
  intros Hnew Hshape Hjk Hgood Hnew' i key T Hi.
  pose proof (Struct_new_keys _ _ _ _ _ _ _ _ _ _ _ _ Hnew Hshape) as Hkeys.
  pose proof (Struct_new_NoDup _ _ _ _ _ _ _ _ _ _ _ _ Hnew) as Hnd.
  assert (jsonMapOf s = jsonMap) as Hjm.
  { by apply Struct_new_inv in Hnew as (? & ? & ? & _ & _ & ->). }
  assert (mapToTypeMap Types = inr (TypesOf s)) as Hm.
  { by apply Struct_new_inv in Hnew as (? & ? & ? & -> & _ & ->). }
  assert (exists c, entries s !! i = Some (key, c)) as [c Hc].
  { assert (map fst (entries s) !! i = Some key) as Hk.
    { rewrite Hkeys. unfold defKeys. rewrite list_lookup_fmap.
      exact (f_equal (fmap fst) Hi). }
    rewrite list_lookup_fmap in Hk.
    destruct (entries s !! i) as [[k c]|]; simpl in Hk; [|done].
    injection Hk as ->. by exists c. }
  rewrite Forall_lookup in Hgood. destruct (Hgood i _ Hc) as [Hne Hdef]. simpl in *.
  destruct (structured_fields registry stringCamelCase stringify isHex hexToU8a inherited
              Types (TypesOf s) (VObject (toJSON s)) jsonMap h2 s' h3 Hm eq_refl Hnew')
    as [_ Hall].
  destruct (Hall i key T Hi) as (assign & c' & Hin & _ & Hget' & _ & Hb).
  exists c, c'. split; [by eapply Map_get_lookup|]. split; [done|].
  change (orEmptyObject (VObject (toJSON s))) with (VObject (toJSON s)) in Hin.
  rewrite fieldInput_keyed in Hin by done.
  unfold lookupByShape, lookupObject, propGet in Hin. simpl in Hin.
  assert (ownProp (toJSON s) (jsonKeyOf jsonMap key) = Some (toJSONOf c)) as Hlook.
  { unfold toJSON. rewrite toJSONFrom_lookup, Hjm.
    rewrite (lastUnder_unique jsonMap (entries s) i key c); [done | | done].
    by rewrite Hkeys. }
  rewrite Hlook, Hdef in Hin. by injection Hin as <-.
Qed.

End ProjectionExtras.

(** ** The type description *)

Lemma TypeFrom_defaults defs result h :
  NoDup (map fst result ++ map fst defs) ->
  Forall (fun kt => exists im, construct kt.2 VUndefined = inr im) defs ->
  TypeFrom defs result h
  = (inr (result ++ map (fun kt => (kt.1, typeLabel kt.2)) defs), h + length defs).
Proof.
  revert result h. induction defs as [|[key T] defs IH]; intros result h Hnd Hdef; simpl.
  - unfold ret. rewrite app_nil_r. f_equal. lia.
  - apply Forall_cons in Hdef as [[im Him] Hdef]. simpl in Him.
    unfold bind, new_. rewrite Him. simpl.
    unfold propSet. rewrite Map_set_fresh.
    + rewrite IH; [|by rewrite map_app, <- app_assoc|done].
      unfold typeLabel. rewrite Him, <- app_assoc. simpl. f_equal. lia.
    + apply NoDup_app in Hnd as (_ & Hdisj & _).
      intros Hin. apply (Hdisj _ Hin). by left.
Qed.

Lemma TypeFrom_throws pre key T post result h cerr :
  Forall (fun kt => exists im, construct kt.2 VUndefined = inr im) pre ->
  construct T VUndefined = inl cerr ->
  TypeFrom (pre ++ (key, T) :: post) result h = (inl cerr, h + length pre + 1).
Proof.
  revert result h. induction pre as [|[key0 T0] pre IH]; intros result h Hdef Hctor; simpl.
  - unfold bind, new_. rewrite Hctor. f_equal. lia.
  - apply Forall_cons in Hdef as [[im Him] Hdef]. simpl in Him.
    unfold bind, new_. rewrite Him. simpl. rewrite IH by done. f_equal. lia.
Qed.

(** X16. The getter [Type] constructs a default instance of every field
    type, in declared order: when every type has a default it maps each
    declared key to the raw type of its default instance; otherwise it
    throws the error of the first type without a default as it is, with
    no field name around it, and constructs nothing after it. *)
Theorem Type_describes_the_fields
    registry stringCamelCase stringify isHex hexToU8a inherited
    Types value jsonMap h s h' h0 :
  Struct_new registry stringCamelCase stringify isHex hexToU8a inherited
    Types value jsonMap h
  = (inr s, h') ->
  (Forall (fun kt => exists im, construct kt.2 VUndefined = inr im) (TypesOf s) ->
   Type_ s h0 = (inr (map (fun kt => (kt.1, typeLabel kt.2)) (TypesOf s)),
                 h0 + length (TypesOf s))) /\
  (forall pre key T post cerr,
     TypesOf s = pre ++ (key, T) :: post ->
     Forall (fun kt => exists im, construct kt.2 VUndefined = inr im) pre ->
     construct T VUndefined = inl cerr ->
     Type_ s h0 = (inl cerr, h0 + length pre + 1)).
Proof.
  intros Hnew.
  assert (NoDup (map fst (TypesOf s))) as Hnd.
  { apply Struct_new_inv in Hnew as (typeMap & ? & ? & Hm & _ & ->).
    by eapply mapToTypeMap_NoDup. }
  split.
  - intros Hdef. unfold Type_. by rewrite TypeFrom_defaults.
  - intros pre key T post cerr Heq Hdef Hctor. unfold Type_. rewrite Heq.
    by apply TypeFrom_throws.
Qed.

(** ** Structs of structs *)

Section NestedExtras.
Variable registry : Registry.
Variable stringCamelCase : string -> Error + string.
Variable stringify : JsValue -> string.
Variable isHex : string -> bool.
Variable hexToU8a : string -> list byte.
Variable inherited : option Codec -> string -> option JsValue.
Variable inheritedFlag : BareOpts -> string -> BareOpts.
Variable stringifyTypes : CodecClassDef -> string.

Local Abbreviation Struct_new :=
  (Struct_new registry stringCamelCase stringify isHex hexToU8a inherited).
Local Abbreviation Struct_with :=
  (Struct_with registry stringCamelCase stringify isHex hexToU8a inherited
     inheritedFlag stringifyTypes).
Local Abbreviation fieldInput := (fieldInput stringCamelCase inherited).
Local Abbreviation mapToTypeMap := (mapToTypeMap registry).

(** The constructor throws at the first field whose constructor throws. *)
Lemma Struct_new_first_failure Types pre key T post value jsonMap h assign cerr :
  mapToTypeMap Types = inr (pre ++ (key, T) :: post) ->
  isStructured value = true ->
  arityFits (pre ++ (key, T) :: post) value ->
  (forall j key' T', pre !! j = Some (key', T') ->
     assignable T' (fieldInput value jsonMap key' j)) ->
  fieldInput value jsonMap key (length pre) = inr assign ->
  instanceOf T assign = None ->
  construct T assign = inl cerr ->
  exists h', Struct_new Types value jsonMap h
             = (inl (mkError (failedOnMessage (jsonKeyOf jsonMap key) (typeLabel T)
                                              (message cerr))), h').
Proof.
  intros Hm Hs Ha Hpre Hin Hinst Hctor.
  destruct (decodeFields_throws stringCamelCase inherited value jsonMap pre key T post
              0 None h cerr) as [h' Hloop]; try done.
  { simpl. by rewrite Hin. }
  exists h'. rewrite (Struct_new_structured _ _ _ _ _ _ _ _ _ _ _ Hm Hs Ha).
  by rewrite Hloop.
Qed.

(** X18. Errors compose into a path. When a field is itself a struct
    (a class made by [Struct.with]) and, in the value assigned to it,
    the constructor of a field of that inner struct throws (the fields
    before it, inside and outside, having been assigned and built), the
    outer constructor throws the inner message behind its own field
    and type: [Struct: failed on <outer>: <type>:: Struct: failed on
    <inner>: <type>:: <message of the leaf>]. *)
Theorem nested_error_reads_as_path
    id TypesI jsonMapI preI keyI TI postI
    TypesO preO keyO postO value jsonMapO h inner leaf cerr :
  mapToTypeMap TypesO
  = inr (preO ++ (keyO, Struct_with id TypesI jsonMapI) :: postO) ->
  isStructured value = true ->
  arityFits (preO ++ (keyO, Struct_with id TypesI jsonMapI) :: postO) value ->
  (forall j key' T', preO !! j = Some (key', T') ->
     assignable T' (fieldInput value jsonMapO key' j)) ->
  fieldInput value jsonMapO keyO (length preO) = inr inner ->
  instanceOf (Struct_with id TypesI jsonMapI) inner = None ->
  mapToTypeMap TypesI = inr (preI ++ (keyI, TI) :: postI) ->
  isStructured inner = true ->
  arityFits (preI ++ (keyI, TI) :: postI) inner ->
  (forall j key' T', preI !! j = Some (key', T') ->
     assignable T' (fieldInput inner jsonMapI key' j)) ->
  fieldInput inner jsonMapI keyI (length preI) = inr leaf ->
  instanceOf TI leaf = None ->
  construct TI leaf = inl cerr ->
  exists h',
    Struct_new TypesO value jsonMapO h
    = (inl (mkError ("Struct: failed on " +:+ jsonKeyOf jsonMapO keyO +:+ ": "
                     +:+ typeLabel (Struct_with id TypesI jsonMapI) +:+ ":: "
                     +:+ "Struct: failed on " +:+ jsonKeyOf jsonMapI keyI +:+ ": "
                     +:+ typeLabel TI +:+ ":: " +:+ message cerr)), h').
Proof.
  intros HmO HsO HaO HpreO HinO HinstO HmI HsI HaI HpreI HinI HinstI HctorI.
  destruct (Struct_new_first_failure TypesI preI keyI TI postI inner jsonMapI 0 leaf cerr)
    as [h1 Hinner]; try done.
  destruct (Struct_new_first_failure TypesO preO keyO
              (Struct_with id TypesI jsonMapI) postO value jsonMapO h inner
              (mkError (failedOnMessage (jsonKeyOf jsonMapI keyI) (typeLabel TI)
                                        (message cerr))))
    as [h' Houter]; try done.
  - simpl. by rewrite Hinner.
  - exists h'. exact Houter.
Qed.

End NestedExtras.

(** ** Worked examples of the further properties *)

Section MoreExamples.
Import Fixtures MoreFixtures.

Local Abbreviation new := Fixtures.Struct_new.

Lemma aliased_built : new abTypes abObject aliasMap 0 = (inr aliased, 2).
Proof. vm_compute. reflexivity. Qed.

Lemma alpha_built : new abTypes alphaObject aliasMap 0 = (inr alpha, 2).
Proof. vm_compute. reflexivity. Qed.

Lemma alphaAgain_built :
  new abTypes (VObject (toJSON toJSONOf alpha)) aliasMap 2 = (inr alphaAgain, 4).
Proof. vm_compute. reflexivity. Qed.

Lemma nameless_built : new namelessTypes namelessObject empty 0 = (inr nameless, 1).
Proof. vm_compute. reflexivity. Qed.

Lemma strict_built :
  new strictTypes (VArray [VNumber 1; VNumber 2]) empty 0 = (inr strict, 2).
Proof. vm_compute. reflexivity. Qed.

Lemma namelessTypes_resolve : mapToTypeMap registry namelessTypes = inr namelessTypeMap.
Proof. reflexivity. Qed.

Lemma abTypeMap_fields (P : nat -> string -> CodecClass -> Prop) :
  P 0 "a" U8 -> P 1 "b" U8 ->
  forall i key T, abTypeMap !! i = Some (key, T) -> P i key T.
Proof.
  intros Ha Hb [|[|i]] key T Hi; simpl in Hi; try discriminate;
    by injection Hi as <- <-.
Qed.

Lemma abTypes_members (P : string -> CodecClass -> Prop) :
  P "a" U8 -> P "b" U8 ->
  forall typeMap key T, mapToTypeMap registry abTypes = inr typeMap ->
    elem_of (key, T) typeMap -> P key T.
Proof.
  intros Ha Hb typeMap key T Hm Hin. rewrite abTypes_resolve in Hm.
  injection Hm as <-. apply list_elem_of_In in Hin. simpl in Hin.
  destruct Hin as [[= <- <-]|[[= <- <-]|[]]]; done.
Qed.

End MoreExamples.

(** The number 5 is refused. *)
Lemma truthy_primitive_refused_witness :
  Fixtures.Struct_new Fixtures.abTypes (VNumber 5) empty 0
  = (inl (mkError ("Struct: Cannot decode value {...} (typeof number), "
                   +:+ "expected an input object, map or array")), 0).
Proof.
  exact (truthy_primitive_refused Fixtures.registry Fixtures.stringCamelCase
           Fixtures.stringify Fixtures.isHex Fixtures.hexToU8a Fixtures.inherited
           Fixtures.abTypes Fixtures.abTypeMap (VNumber 5) empty 0
           abTypes_resolve eq_refl eq_refl I).
Defined.

(** [false] is constructed as nothing is. *)
Lemma falsy_primitive_as_absent_witness :
  Fixtures.Struct_new Fixtures.abTypes (VBool false) empty 0
  = Fixtures.Struct_new Fixtures.abTypes VUndefined empty 0.
Proof.
  exact (falsy_primitive_as_absent Fixtures.registry Fixtures.stringCamelCase
           Fixtures.stringify Fixtures.isHex Fixtures.hexToU8a Fixtures.inherited
           Fixtures.abTypes (VBool false) empty 0 eq_refl eq_refl I).
Defined.

(** An array of two instances of [u8]: the struct holds them. *)
Lemma instances_are_stored_as_is_witness :
  exists s,
    Fixtures.Struct_new Fixtures.abTypes
      (VArray [VCodec MoreFixtures.one []; VCodec MoreFixtures.two []]) empty 0
    = (inr s, 0) /\
    entries s !! 1 = Some ("b", MoreFixtures.two).
Proof.
  destruct (instances_are_stored_as_is Fixtures.registry Fixtures.stringCamelCase
              Fixtures.stringify Fixtures.isHex Fixtures.hexToU8a Fixtures.inherited
              Fixtures.abTypes Fixtures.abTypeMap
              (VArray [VCodec MoreFixtures.one []; VCodec MoreFixtures.two []]) empty 0
              abTypes_resolve eq_refl eq_refl) as (s & Hnew & Hall).
  - apply abTypeMap_fields; eexists; (split; [reflexivity | eexists; reflexivity]).
  - exists s. split; [exact Hnew|].
    destruct (Hall 1 "b" Fixtures.U8 eq_refl) as (assign & c & Ha & Hc & Hi).
    vm_compute in Ha. injection Ha as <-.
    vm_compute in Hi. injection Hi as <-. exact Hc.
Defined.

(** From [{ b: 2, a: 1 }], [a] is constructed first and [b] second. *)
Lemma fields_constructed_in_declared_order_witness :
  Fixtures.Struct_new Fixtures.abTypes Fixtures.baObject empty 0
  = (inr Fixtures.abStruct, 2) /\
  2 = 0 + length Fixtures.abTypeMap /\
  forall i key c, entries Fixtures.abStruct !! i = Some (key, c) -> oid c = 0 + i.
Proof.
  split; [exact abStruct_built|].
  apply (fields_constructed_in_declared_order Fixtures.registry Fixtures.stringCamelCase
           Fixtures.stringify Fixtures.isHex Fixtures.hexToU8a Fixtures.inherited
           Fixtures.abTypes Fixtures.abTypeMap Fixtures.baObject empty 0
           Fixtures.abStruct 2 abTypes_resolve eq_refl I).
  - intros i key T assign Hi. revert assign.
    apply (abTypeMap_fields
             (fun i key T => forall assign,
                fieldInput Fixtures.stringCamelCase Fixtures.inherited
                  Fixtures.baObject empty key i = inr assign ->
                instanceOf T assign = None)) with (i := i); [| |exact Hi];
      intros assign Ha; vm_compute in Ha; injection Ha as <-; reflexivity.
  - exact abStruct_built.
Defined.

(** The second of two fields fails: three constructor calls. *)
Lemma construction_stops_at_first_failure_witness :
  Fixtures.Struct_new Fixtures.abTypes (VArray [VNumber 1; VString "x"]) empty 0
  = (inl (mkError "Struct: failed on b: u8:: u8: cannot decode the input"), 3).
Proof.
  refine (construction_stops_at_first_failure Fixtures.registry Fixtures.stringCamelCase
            Fixtures.stringify Fixtures.isHex Fixtures.hexToU8a Fixtures.inherited
            Fixtures.abTypes [("a", Fixtures.U8)] "b" Fixtures.U8 []
            (VArray [VNumber 1; VString "x"]) empty 0 (VString "x")
            (mkError "u8: cannot decode the input") _ _ _ _ _ _ _).
  - exact abTypes_resolve.
  - reflexivity.
  - reflexivity.
  - intros [|j] key T Hj; simpl in Hj; [|discriminate].
    injection Hj as <- <-. exists (VNumber 1).
    split; [reflexivity|]. split; [reflexivity | eexists; reflexivity].
  - reflexivity.
  - reflexivity.
  - reflexivity.
Defined.

(** From [{ b: 2, _: 9 }], the field [a] is not found under its name, the
    key [_] cannot be camel-cased, and the construction fails on [a]
    after one constructor call. *)
Lemma key_without_word_fails_the_field_witness :
  Fixtures.Struct_new Fixtures.abTypes Fixtures.badKeyObject empty 0
  = (inl (mkError ("Struct: failed on a: u8:: "
                   +:+ "Cannot read properties of undefined (reading 'toUpperCase')")),
     1).
Proof.
  refine (key_without_word_fails_the_field Fixtures.registry Fixtures.stringCamelCase
            Fixtures.stringify Fixtures.isHex Fixtures.hexToU8a Fixtures.inherited
            Fixtures.abTypes [] "a" Fixtures.U8 [("b", Fixtures.U8)]
            [("b", VNumber 2); ("_", VNumber 9)] empty 0
            (mkError "Cannot read properties of undefined (reading 'toUpperCase')")
            _ _ _ _ _).
  - exact abTypes_resolve.
  - intros j key T Hj. discriminate.
  - discriminate.
  - reflexivity.
  - reflexivity.
Defined.

(** Built from an object, a struct reports no consumed length. *)
Lemma initialU8aLength_zero_witness :
  isBytes Fixtures.isHex Fixtures.baObject = false /\
  initialU8aLength Fixtures.abStruct = 0.
Proof.
  split; [reflexivity|].
  exact (initialU8aLength_zero Fixtures.registry Fixtures.stringCamelCase
           Fixtures.stringify Fixtures.isHex Fixtures.hexToU8a Fixtures.inherited
           Fixtures.abTypes Fixtures.baObject empty 0 Fixtures.abStruct 2
           eq_refl abStruct_built).
Defined.

(** The key [zzz] between [b] and [a] changes nothing. *)
Lemma unknown_keys_are_ignored_witness :
  Fixtures.Struct_new Fixtures.abTypes
    (VObject ([("b", VNumber 2)] ++ ("zzz", VNumber 9) :: [("a", VNumber 1)])) empty 0
  = Fixtures.Struct_new Fixtures.abTypes
      (VObject ([("b", VNumber 2)] ++ [("a", VNumber 1)])) empty 0.
Proof.
  apply (unknown_keys_are_ignored Fixtures.registry Fixtures.stringCamelCase
           Fixtures.stringify Fixtures.isHex Fixtures.hexToU8a Fixtures.inherited
           Fixtures.abTypes [("b", VNumber 2)] "zzz" "zzz").
  - reflexivity.
  - apply abTypes_members; split; discriminate.
Defined.

(** [{ b: 2, a: 1 }] and [{ a: 1, b: 2 }] are constructed alike. *)
Lemma object_key_order_is_irrelevant_witness :
  Permutation [("b", VNumber 2); ("a", VNumber 1)] [("a", VNumber 1); ("b", VNumber 2)] /\
  Fixtures.Struct_new Fixtures.abTypes Fixtures.baObject empty 0
  = Fixtures.Struct_new Fixtures.abTypes MoreFixtures.abObject empty 0.
Proof.
  assert (Permutation [("b", VNumber 2); ("a", VNumber 1)]
                      [("a", VNumber 1); ("b", VNumber 2)]) as Hperm
    by apply perm_swap.
  split; [exact Hperm|].
  apply (object_key_order_is_irrelevant Fixtures.registry Fixtures.stringCamelCase
           Fixtures.stringify Fixtures.isHex Fixtures.hexToU8a Fixtures.inherited
           Fixtures.abTypes _ _ empty 0 Hperm).
  simpl. repeat constructor; rewrite ?list_elem_of_In; simpl; intuition discriminate.
Defined.

(** With [a] going by [alpha], the object [{ a: 1, b: 2 }] leaves the
    field [a] at its default. *)
Lemma alias_replaces_field_name_witness :
  Fixtures.Struct_new Fixtures.abTypes MoreFixtures.abObject MoreFixtures.aliasMap 0
  = (inr MoreFixtures.aliased, 2) /\
  toU8a Fixtures.inheritedFlag MoreFixtures.aliased BareUndefined
  = [x00; x02]%byte /\
  exists c, get MoreFixtures.aliased "a" = Some c /\ isDefaultOf Fixtures.U8 c.
Proof.
  split; [exact aliased_built|]. split; [reflexivity|].
  apply (alias_replaces_field_name Fixtures.registry Fixtures.stringCamelCase
           Fixtures.stringify Fixtures.isHex Fixtures.hexToU8a Fixtures.inherited
           Fixtures.abTypes Fixtures.abTypeMap
           [("a", VNumber 1); ("b", VNumber 2)] MoreFixtures.aliasMap 0
           MoreFixtures.aliased 2 0 "a" "alpha" Fixtures.U8).
  - exact abTypes_resolve.
  - reflexivity.
  - reflexivity.
  - discriminate.
  - reflexivity.
  - intros k v Hin. apply list_elem_of_In in Hin. simpl in Hin.
    destruct Hin as [[= <- <-]|[[= <- <-]|[]]]; split; discriminate.
  - exact aliased_built.
Defined.

(** The field of empty name is built from the empty string, not from the
    5 that the object holds under the empty key. *)
Lemma empty_field_name_is_not_looked_up_witness :
  Fixtures.Struct_new MoreFixtures.namelessTypes MoreFixtures.namelessObject empty 0
  = (inr MoreFixtures.nameless, 1) /\
  toU8a Fixtures.inheritedFlag MoreFixtures.nameless BareUndefined
  = [x00]%byte /\
  exists c, get MoreFixtures.nameless "" = Some c /\
            builtFrom MoreFixtures.Tolerant (VString "") c.
Proof.
  split; [exact nameless_built|]. split; [reflexivity|].
  exact (empty_field_name_is_not_looked_up Fixtures.registry Fixtures.stringCamelCase
           Fixtures.stringify Fixtures.isHex Fixtures.hexToU8a Fixtures.inherited
           MoreFixtures.namelessTypes MoreFixtures.namelessTypeMap
           MoreFixtures.namelessObject empty 0 MoreFixtures.nameless 1 0
           MoreFixtures.Tolerant namelessTypes_resolve eq_refl eq_refl eq_refl
           nameless_built).
Defined.

(** The struct of [a] and [b] has nothing under [c] nor at index 2. *)
Lemma reads_outside_the_fields_witness :
  ~ is_Some (get Fixtures.abStruct "c") /\
  ~ is_Some (getAtIndex Fixtures.abStruct 2) /\
  is_Some (get Fixtures.abStruct "b").
Proof.
  destruct (reads_outside_the_fields Fixtures.registry Fixtures.stringCamelCase
              Fixtures.stringify Fixtures.isHex Fixtures.hexToU8a Fixtures.inherited
              Fixtures.abTypes Fixtures.baObject empty 0 Fixtures.abStruct 2
              abTypes_NoDup I abStruct_built) as (Hget & _ & Hidx).
  split; [|split].
  - rewrite Hget. simpl. rewrite !list_elem_of_In. simpl. intuition discriminate.
  - rewrite Hidx. simpl. lia.
  - rewrite Hget. simpl. rewrite !list_elem_of_In. simpl. intuition.
Defined.

(** With [a] going by [alpha]: the human form names [a], the JSON
    [alpha]. *)
Lemma projections_list_the_fields_witness :
  toHuman MoreFixtures.toHumanOf MoreFixtures.alpha None
  = [("a", VNumber 1); ("b", VNumber 2)] /\
  toJSON MoreFixtures.toJSONOf MoreFixtures.alpha
  = [("alpha", VNumber 1); ("b", VNumber 2)].
Proof.
  destruct (projections_list_the_fields Fixtures.registry Fixtures.stringCamelCase
              Fixtures.stringify Fixtures.isHex Fixtures.hexToU8a Fixtures.inherited
              MoreFixtures.toJSONOf MoreFixtures.toHumanOf
              Fixtures.abTypes MoreFixtures.alphaObject MoreFixtures.aliasMap 0
              MoreFixtures.alpha 2 None alpha_built) as [Hhuman Hjson].
  split.
  - rewrite Hhuman. reflexivity.
  - rewrite Hjson; [reflexivity|].
    vm_compute. repeat constructor; rewrite ?list_elem_of_In; simpl; intuition discriminate.
Defined.

(** The struct read from [{ alpha: 1, b: 2 }] and the one constructed from
    its JSON hold the same bytes. *)
Lemma toJSON_round_trip_witness :
  Fixtures.Struct_new Fixtures.abTypes
    (VObject (toJSON MoreFixtures.toJSONOf MoreFixtures.alpha)) MoreFixtures.aliasMap 2
  = (inr MoreFixtures.alphaAgain, 4) /\
  toU8a Fixtures.inheritedFlag MoreFixtures.alphaAgain BareUndefined
  = toU8a Fixtures.inheritedFlag MoreFixtures.alpha BareUndefined /\
  exists c c',
    get MoreFixtures.alpha "a" = Some c /\ get MoreFixtures.alphaAgain "a" = Some c' /\
    builtFrom Fixtures.U8 (MoreFixtures.toJSONOf c) c'.
Proof.
  split; [exact alphaAgain_built|]. split; [reflexivity|].
  apply (toJSON_round_trip Fixtures.registry Fixtures.stringCamelCase
           Fixtures.stringify Fixtures.isHex Fixtures.hexToU8a Fixtures.inherited
           MoreFixtures.toJSONOf
           Fixtures.abTypes MoreFixtures.alphaObject MoreFixtures.aliasMap 0
           MoreFixtures.alpha 2 2 MoreFixtures.alphaAgain 4 alpha_built I) with (i := 0).
  - vm_compute. repeat constructor; rewrite ?list_elem_of_In; simpl; intuition discriminate.
  - repeat constructor; simpl; discriminate.
  - exact alphaAgain_built.
  - reflexivity.
Defined.

(** Both types of [abStruct] have a default; the second type of [strict]
    has none. *)
Lemma Type_describes_the_fields_witness :
  Type_ Fixtures.abStruct 5 = (inr [("a", "u8"); ("b", "u8")], 7) /\
  Type_ MoreFixtures.strict 0 = (inl (mkError "strict: a number is required"), 2).
Proof.
  split.
  - apply (proj1 (Type_describes_the_fields Fixtures.registry Fixtures.stringCamelCase
                    Fixtures.stringify Fixtures.isHex Fixtures.hexToU8a Fixtures.inherited
                    Fixtures.abTypes Fixtures.baObject empty 0 Fixtures.abStruct 2 5
                    abStruct_built)).
    repeat constructor; eexists; reflexivity.
  - apply (proj2 (Type_describes_the_fields Fixtures.registry Fixtures.stringCamelCase
                    Fixtures.stringify Fixtures.isHex Fixtures.hexToU8a Fixtures.inherited
                    MoreFixtures.strictTypes (VArray [VNumber 1; VNumber 2]) empty 0
                    MoreFixtures.strict 2 0 strict_built)
             [("a", Fixtures.U8)] "s" MoreFixtures.Strict []).
    + reflexivity.
    + repeat constructor; eexists; reflexivity.
    + reflexivity.
Defined.

(** The path [inner], [b]. *)
Lemma nested_error_reads_as_path_witness :
  exists h',
    Fixtures.Struct_new Fixtures.nestedTypes Fixtures.nestedObject empty 0
    = (inl (mkError ("Struct: failed on inner: {b}:: "
                     +:+ "Struct: failed on b: u8:: u8: cannot decode the input")), h').
Proof.
  refine (nested_error_reads_as_path Fixtures.registry Fixtures.stringCamelCase
           Fixtures.stringify Fixtures.isHex Fixtures.hexToU8a Fixtures.inherited
           Fixtures.inheritedFlag Fixtures.stringifyTypes
           2 [("b", inr Fixtures.U8)] empty [] "b" Fixtures.U8 []
           Fixtures.nestedTypes [] "inner" [] Fixtures.nestedObject empty 0
           (VObject [("b", VString "x")]) (VString "x")
           (mkError "u8: cannot decode the input") _ _ _ _ _ _ _ _ _ _ _ _ _).
  - reflexivity.
  - reflexivity.
  - exact I.
  - intros j key T Hj. discriminate.
  - reflexivity.
  - reflexivity.
  - reflexivity.
  - reflexivity.
  - exact I.
  - intros j key T Hj. discriminate.
  - reflexivity.
  - reflexivity.
  - reflexivity.
Defined.
